(** * Audio events of frigate: a shallow embedding of [frigate/events/audio.py]

    The development follows the source file top-down: the ranking stage of
    [AudioTfl] (lines 81-137) and the event life-cycle of
    [AudioEventMaintainer] (lines 140-250).

    Modelling conventions.
    - Python and NumPy floats are read as rationals ([Q]); rounding of
      floating-point arithmetic and NaN are outside the model.  Comparisons
      and the constants [0.4] and [0.8] are exact.
    - A Python [dict] whose iteration order matters is an association list
      in insertion order; a [dict] used only through its keys is a [gmap].
    - Objects that are shared by reference live in a heap of locations.
    - Code that can raise returns a [result]; stateful code is a function
      on the [world]. *)

From Stdlib Require Import QArith Qround Lqa Sorted.
From stdpp Require Import gmap strings list fin_maps sorting.

Open Scope Q_scope.

(** ** Rationals as floats *)

Definition Qltb (x y : Q) : bool := negb (Qle_bool y x).

#[global] Instance Q_eq_dec : EqDecision Q.
Proof. solve_decision. Defined.

#[global] Instance Q_inhabited : Inhabited Q := populate 0.

(** ** Python values, exceptions and the world *)

Module Py.

Inductive exn :=
| KeyError
| IndexError
| TypeError
| ValueError
| AttributeError
| RuntimeError.

Inductive result (A : Type) :=
| Ok (a : A)
| Raise (e : exn).
Arguments Ok {A} a.
Arguments Raise {A} e.

(** The values held by the inner dicts of this module: strings, floats
    and [mp.Value] flags (read through [.value]). *)
Inductive field :=
| FStr (s : string)
| FNum (q : Q)
| FFlag (b : bool).

#[global] Instance field_eq_dec : EqDecision field.
Proof. solve_decision. Defined.

(** A value of the shared dict: [None] or an inner dict. *)
Abbreviation pydict := (gmap string field).
Abbreviation pyval := (option (gmap string field)).

(** Python truthiness of such a value: [None] and [{}] are falsy. *)
Definition truthy (v : pyval) : bool :=
  match v with
  | None => false
  | Some d => negb (bool_decide (d = ∅))
  end.

(** An insertion-ordered dict with string keys. *)
Abbreviation store := (list (string * option (gmap string field))).

Fixpoint dict_lookup (k : string) (s : store) : option pyval :=
  match s with
  | [] => None
  | (k', v) :: s' => if decide (k' = k) then Some v else dict_lookup k s'
  end.

(** [d.get(k)]: the value, or [None] when the key is missing. *)
Definition dict_get (k : string) (s : store) : pyval :=
  default None (dict_lookup k s).

(** [d[k] = v]: overwrite in place, or append a new key at the end. *)
Fixpoint dict_set (k : string) (v : pyval) (s : store) : store :=
  match s with
  | [] => [(k, v)]
  | (k', v') :: s' =>
      if decide (k' = k) then (k', v) :: s' else (k', v') :: dict_set k v s'
  end.

Definition keys (s : store) : list string := s.*1.

Definition loc := nat.

(** Observable effects: a run of the inference engine and the two calls
    to the event store. *)
Inductive effect :=
| Invoke (tensor_input : list Q)
| Post (camera label : string)
| Put (event_id : field) (end_time : Q).

Record world := World {
  heap : loc -> list (string * option (gmap string field));
  trace : list effect;
  stop_is_set : bool
}.

Definition emit (e : effect) (σ : world) : world :=
  World (heap σ) (trace σ ++ [e]) (stop_is_set σ).

Definition write (l : loc) (s : store) (σ : world) : world :=
  World (fun l' => if decide (l' = l) then s else heap σ l')
        (trace σ) (stop_is_set σ).

(** State and exceptions. *)
Definition M (A : Type) : Type := world -> result (A * world).

Definition ret {A} (a : A) : M A := fun σ => Ok (a, σ).
Definition raise {A} (e : exn) : M A := fun _ => Raise e.
Definition bind {A B} (m : M A) (k : A -> M B) : M B :=
  fun σ => match m σ with
           | Ok (a, σ') => k a σ'
           | Raise e => Raise e
           end.

End Py.
Export Py.

Notation "'do' x <- m ; k" := (Py.bind m (fun x => k))
  (at level 10, x name, m at level 100, k at level 200).

(** ** NumPy helpers used by the ranking stage *)

Module Np.

(** Insertion of position [p] into a list of positions ordered by
    ascending key. *)
Fixpoint insert_pos (a : list Q) (p : nat) (l : list nat) : list nat :=
  match l with
  | [] => [p]
  | q :: l' =>
      if Qle_bool (nth p a 0) (nth q a 0) then p :: l
      else q :: insert_pos a p l'
  end.

(** [np.argsort(a)]: the positions of [a] in ascending order of value.
    NumPy leaves the order of equal values open; this is the stable
    choice. *)
Definition argsort (a : list Q) : list nat :=
  foldr (insert_pos a) [] (seq 0 (length a)).

(** [np.argpartition(a, kth)]: raises [ValueError] unless
    [kth < len(a)]; otherwise some arrangement of the positions with the
    [kth] smallest values first.  The fully sorted arrangement is one. *)
Definition argpartition (a : list Q) (kth : nat) : result (list nat) :=
  if decide (kth < length a)%nat then Ok (argsort a) else Raise ValueError.

(** [l[idx]] with an integer index array. *)
Definition take_idx {A} (d : A) (l : list A) (idx : list nat) : list A :=
  map (fun i => nth i l d) idx.

(** [l[mask[l]]]: the entries of an index array whose mask bit is set. *)
Definition select (mask : list bool) (idx : list nat) : list nat :=
  filter (fun i => nth i mask false = true) idx.

End Np.

(** ** [class AudioTfl] *)

Module AudioTfl.

(** The object built by [__init__]: the label vocabulary read by
    [load_labels] and the inference engine, taken as the function from an
    input tensor to the score vector read back by [get_tensor(...)[0]].
    The stop event is the [stop_is_set] flag of the world. *)
Record t := Build {
  labels : list string;
  interpreter : list Q -> list Q
}.

(** One row of the [(20, 6)] array: class id, score and four box values. *)
Record row := Row { d0 : Q; d1 : Q; d2 : Q; d3 : Q; d4 : Q; d5 : Q }.

(** A row of [np.zeros((20, 6))]. *)
Definition zero_row : row := Row 0 0 0 0 0 0.

(** The row written at lines 112-119; every entry of [boxes] is [-1]. *)
Definition filled_row (class_id : nat) (score : Q) : row :=
  Row (inject_Z (Z.of_nat class_id)) score (-1) (-1) (-1) (-1).

(** Lines 109-119: [for i in range(count)], started at [i] with [n]
    iterations left.  The guard [i == 20] keeps the write inside the 20
    rows. *)
Fixpoint fill (class_ids : list nat) (scores : list Q) (n i : nat)
    (detections : list row) : list row :=
  match n with
  | O => detections
  | S n' =>
      if Qltb (nth i scores 0) 0.4 || (i =? 20)%nat then detections
      else fill class_ids scores n' (S i)
             (<[i := filled_row (nth i class_ids O) (nth i scores 0)]>
                detections)
  end.

(** Lines 102-104 after the partition: [part] is what
    [np.argpartition(-res, 20)] returned. *)
Definition top_class_ids (res : list Q) (part : list nat) : list nat :=
  let non_zero_indices := map (fun x => Qltb 0 x) res in
  let class_ids := take 20 part in
  let class_ids :=
    Np.take_idx O class_ids
      (Np.argsort (map Qopp (Np.take_idx 0 res class_ids))) in
  Np.select non_zero_indices class_ids.

(** Lines 98-121 for a given partition. *)
Definition rank_from (res : list Q) (part : list nat) : list row :=
  let detections := replicate 20 zero_row in
  let class_ids := top_class_ids res part in
  let scores := Np.take_idx 0 res class_ids in
  let count := length scores in
  fill class_ids scores count 0 detections.

(** Lines 98-121 on the score vector [res]. *)
Definition rank (res : list Q) : result (list row) :=
  match Np.argpartition (map Qopp res) 20 with
  | Ok part => Ok (rank_from res part)
  | Raise e => Raise e
  end.

(** Lines 95-121: one run of the engine, then the ranking of its
    scores. *)
Definition _detect_raw (self : t) (tensor_input : list Q) : M (list row) :=
  fun σ =>
    let σ := emit (Invoke tensor_input) σ in
    let res := interpreter self tensor_input in
    match rank res with
    | Ok detections => Ok (detections, σ)
    | Raise e => Raise e
    end.

(** [int(x)] on a float: truncation towards zero. *)
Definition py_int (x : Q) : Z := Z.quot (Qnum x) (Z.pos (Qden x)).

(** [self.labels[int(d[0])]]; a missing index raises. *)
Definition label_of (self : t) (x : Q) : result string :=
  if decide (0 <= py_int x)%Z then
    match labels self !! Z.to_nat (py_int x) with
    | Some l => Ok l
    | None => Raise KeyError
    end
  else Raise KeyError.

Definition detection : Type := string * Q * (Q * Q * Q * Q).

(** Line 135: the tuple appended for the raw row [d]. *)
Definition as_detection (self : t) (d : row) : result detection :=
  match label_of self (d0 d) with
  | Ok l => Ok (l, d1 d, (d2 d, d3 d, d4 d, d5 d))
  | Raise e => Raise e
  end.

(** Lines 131-137. *)
Fixpoint detect_loop (self : t) (threshold : Q) (raw_detections : list row)
    (detections : list detection) : result (list detection) :=
  match raw_detections with
  | [] => Ok detections
  | d :: rest =>
      if Qltb (d1 d) threshold then Ok detections
      else
        match as_detection self d with
        | Ok det => detect_loop self threshold rest (detections ++ [det])
        | Raise e => Raise e
        end
  end.

(** Lines 123-137. *)
Definition detect (self : t) (tensor_input : list Q) (threshold : Q)
    : M (list detection) :=
  fun σ =>
    let detections := [] in
    if stop_is_set σ then Ok (detections, σ)
    else
      match _detect_raw self tensor_input σ with
      | Raise e => Raise e
      | Ok (raw_detections, σ) =>
          match detect_loop self threshold raw_detections detections with
          | Ok detections => Ok (detections, σ)
          | Raise e => Raise e
          end
      end.

End AudioTfl.

(** ** [class AudioEventMaintainer] *)

Module AudioEventMaintainer.

#[local] Open Scope string_scope.

(** The constants imported from [frigate.const]. *)
Record const := Const {
  AUDIO_DURATION : Q;
  AUDIO_SAMPLE_RATE : Q;
  AUDIO_MAX_BIT_RANGE : Q
}.

(** The fields of [CameraConfig] read by this class: [name],
    [audio.listen], [audio.max_not_heard] and
    [record.events.post_capture]. *)
Record CameraConfig := Camera {
  name : string;
  audio_listen : list string;
  audio_max_not_heard : Q;
  record_events_post_capture : Q
}.

(** What [requests.post] returns: the status code and the decoded JSON
    body, an array of objects.  The call is taken to return; an exception
    raised by the transport is outside the model. *)
Record response := Response {
  status_code : Z;
  json : list (gmap string field)
}.

(** [round(x)] on a float: to the nearest integer, ties to the even one. *)
Definition py_round (x : Q) : Z :=
  let f := Qfloor x in
  let r := x - inject_Z f in
  if Qltb r (1 # 2) then f
  else if Qltb (1 # 2) r then (f + 1)%Z
  else if Z.even f then f else (f + 1)%Z.

Record t := Build {
  config : CameraConfig;
  feature_metrics : loc;
  detections : loc;
  detector : AudioTfl.t;
  shape : Z;
  chunk_size : Z
}.

(** Lines 141-165.  [feature_metrics] is the location of the dict passed
    in; [detector] is the [AudioTfl] built at line 153. *)
Definition __init__ (c : const) (camera : CameraConfig)
    (feature_metrics : loc) (detector : AudioTfl.t) : t :=
  {| config := camera;
     feature_metrics := feature_metrics;
     detections := feature_metrics;
     detector := detector;
     shape := py_round (AUDIO_DURATION c * AUDIO_SAMPLE_RATE c);
     chunk_size := py_round (AUDIO_DURATION c * AUDIO_SAMPLE_RATE c * 2) |}.

(** The dict literal of lines 195-199. *)
Definition event_record (event_id : field) (label : string) (now : Q)
    : gmap string field :=
  <["id" := event_id]>
    (<["label" := FStr label]> (<["last_detection" := FNum now]> ∅)).

(** Lines 182-199.  [now] is what [datetime.datetime.now().timestamp()]
    returns when it is read, [resp] what [requests.post] returns when it
    is called. *)
Definition handle_detection (self : t) (label : string) (score : Q)
    (now : Q) (resp : response) : M unit :=
  fun σ =>
    let dets := heap σ (detections self) in
    if truthy (dict_get label dets) then
      match dict_lookup label dets with
      | Some (Some d) =>
          Ok (tt, write (detections self)
                    (dict_set label
                       (Some (<["last_detection" := FNum now]> d)) dets) σ)
      | Some None => Raise TypeError
      | None => Raise KeyError
      end
    else
      let σ := emit (Post (name (config self)) label) σ in
      if decide (status_code resp = 200%Z) then
        match json resp with
        | [] => Raise IndexError
        | o :: _ =>
            match o !! "event_id" with
            | None => Raise KeyError
            | Some event_id =>
                Ok (tt, write (detections self)
                          (dict_set label
                             (Some (event_record event_id label now))
                             (heap σ (detections self))) σ)
            end
        end
      else Ok (tt, σ).

(** [detection.get("last_detection", now)] as the right operand of the
    subtraction at line 209. *)
Definition last_detection_or (now : Q) (d : gmap string field) : result Q :=
  match d !! "last_detection" with
  | None => Ok now
  | Some (FNum t) => Ok t
  | Some _ => Raise TypeError
  end.

(** Lines 205-219, the body of the loop for one [detection].  What
    [requests.put] returns is not read.  Storing under a [label] that is
    not a string would add a key, and the iterator raises at its next
    step. *)
Definition expire_one (self : t) (now : Q) (detection : pyval) : M unit :=
  fun σ =>
    if negb (truthy detection) then Ok (tt, σ)
    else
      match detection with
      | None => Ok (tt, σ)
      | Some d =>
          match last_detection_or now d with
          | Raise e => Raise e
          | Ok last =>
              if Qltb (audio_max_not_heard (config self)) (now - last) then
                match d !! "id", d !! "last_detection" with
                | None, _ => Raise KeyError
                | Some _, None => Raise KeyError
                | Some event_id, Some (FNum t) =>
                    let σ :=
                      emit (Put event_id
                              (t + record_events_post_capture (config self)))
                           σ in
                    match d !! "label" with
                    | None => Raise KeyError
                    | Some (FStr l) =>
                        Ok (tt, write (detections self)
                                  (dict_set l None (heap σ (detections self)))
                                  σ)
                    | Some _ => Raise RuntimeError
                    end
                | Some _, Some _ => Raise TypeError
                end
              else Ok (tt, σ)
          end
      end.

(** Line 204: the iterator of [self.detections.values()], created when the
    dict had [used] entries, with [n] steps left and standing at entry [i].
    Each step first checks that the dict kept its size, then yields the
    value now stored at entry [i]. *)
Fixpoint expire_loop (self : t) (now : Q) (used n i : nat) : M unit :=
  fun σ =>
    let dets := heap σ (detections self) in
    if decide (length dets = used) then
      match n with
      | O => Ok (tt, σ)
      | S n' =>
          match dets !! i with
          | None => Ok (tt, σ)
          | Some (_, detection) =>
              match expire_one self now detection σ with
              | Ok (_, σ) => expire_loop self now used n' (S i) σ
              | Raise e => Raise e
              end
          end
      end
    else Raise RuntimeError.

(** Lines 201-219. *)
Definition expire_detections (self : t) (now : Q) : M unit :=
  fun σ =>
    let used := length (heap σ (detections self)) in
    expire_loop self now used used 0 σ.

(** What one call of [detect_audio] obtains from outside: the clock value
    and the response of the event store while the [i]-th model detection
    is handled, and the clock value read by the expiry pass. *)
Record cycle_env := CycleEnv {
  now_at : nat -> Q;
  resp_at : nat -> response;
  now_expire : Q
}.

(** Lines 174-178. *)
Fixpoint handle_all (self : t) (env : cycle_env) (i : nat)
    (model_detections : list AudioTfl.detection) : M unit :=
  match model_detections with
  | [] => ret tt
  | (label, score, _) :: rest =>
      if bool_decide (label ∈ audio_listen (config self)) then
        do _ <- handle_detection self label score (now_at env i)
                  (resp_at env i);
        handle_all self env (S i) rest
      else handle_all self env (S i) rest
  end.

(** Lines 167-180.  [audio] holds the int16 samples. *)
Definition detect_audio (c : const) (self : t) (env : cycle_env)
    (audio : list Z) : M unit :=
  fun σ =>
    match dict_lookup (name (config self)) (heap σ (feature_metrics self)) with
    | None => Raise KeyError
    | Some None => Raise TypeError
    | Some (Some metrics) =>
        match metrics !! "audio_enabled" with
        | None => Raise KeyError
        | Some (FFlag enabled) =>
            if negb enabled then Ok (tt, σ)
            else
              let waveform :=
                map (fun a => inject_Z a / AUDIO_MAX_BIT_RANGE c) audio in
              (do model_detections <-
                 AudioTfl.detect (detector self) waveform 0.8;
               do _ <- handle_all self env 0 model_detections;
               expire_detections self (now_expire env)) σ
        | Some _ => Raise AttributeError
        end
    end.

End AudioEventMaintainer.

(** ** [listen_to_audio] *)

Module Supervisor.

Import AudioEventMaintainer.

(** A value of [config.cameras]: the camera with its [enabled] and
    [audio.enabled_in_config] flags. *)
Record camera_entry := CameraEntry {
  camera : CameraConfig;
  enabled : bool;
  audio_enabled_in_config : bool
}.

(** Lines 74-78: the loop over [config.cameras.values()], with
    [audio_threads] as built so far.  Every worker gets the one
    [process_info] dict. *)
Fixpoint start_workers (c : const) (cameras : list camera_entry)
    (process_info : loc) (detector : AudioTfl.t)
    (audio_threads : list AudioEventMaintainer.t)
    : list AudioEventMaintainer.t :=
  match cameras with
  | [] => audio_threads
  | cam :: rest =>
      if enabled cam && audio_enabled_in_config cam then
        let audio := __init__ c (camera cam) process_info detector in
        start_workers c rest process_info detector (audio_threads ++ [audio])
      else start_workers c rest process_info detector audio_threads
  end.

(** Lines 50-78: the workers that [listen_to_audio] starts. *)
Definition listen_to_audio (c : const) (cameras : list camera_entry)
    (process_info : loc) (detector : AudioTfl.t)
    : list AudioEventMaintainer.t :=
  start_workers c cameras process_info detector [].

(** Line 64: [stop_event.set()]. *)
Definition set_stop_event (σ : world) : world :=
  World (heap σ) (trace σ) true.

End Supervisor.

(** ** The read loop of [AudioEventMaintainer] *)

Module AudioStream.

Import AudioEventMaintainer.

(** Calls to the operating system and to the collaborators of the
    worker, in the order they are made. *)
Inductive io_event :=
| Mkfifo (path : string)
| StartFfmpeg (previous : bool)
| OpenPipe (path : string)
| ReadPipe (size : Z)
| LogDump
| ClosePipe
| StopFfmpeg
| LogClose.

#[global] Instance io_event_eq_dec : EqDecision io_event.
Proof. solve_decision. Defined.

(** The worker with its mutable attributes: the tracker's world, the
    calls made so far, whether [pipe_file] is open and whether
    [audio_listener] holds a process. *)
Record stream := Stream {
  tracker : world;
  calls : list io_event;
  pipe_file : bool;
  audio_listener : bool
}.

(** Line 156: [f"{CACHE_DIR}/{self.config.name}-audio"]. *)
Definition pipe_path (cache_dir : string) (self : AudioEventMaintainer.t)
    : string :=
  (cache_dir +:+ "/" +:+ name (config self) +:+ "-audio")%string.

(** Lines 221-229.  [FileExistsError] of [os.mkfifo] is swallowed, so the
    call continues whether or not the pipe existed. *)
Definition restart_audio_pipe (path : string) (st : stream) : stream :=
  Stream (tracker st)
         (calls st ++ [Mkfifo path; StartFfmpeg (audio_listener st)])
         (pipe_file st) true.

(** What [self.pipe_file.read(self.chunk_size)] gives: bytes, or
    [BrokenPipeError]. *)
Inductive read_result :=
| Bytes (data : list Byte.byte)
| BrokenPipe.

(** One little-endian signed 16-bit sample. *)
Definition int16 (lo hi : Byte.byte) : Z :=
  let u := (Z.of_N (Byte.to_N lo) + 256 * Z.of_N (Byte.to_N hi))%Z in
  if (u <? 32768)%Z then u else (u - 65536)%Z.

Fixpoint int16_samples (buffer : list Byte.byte) : list Z :=
  match buffer with
  | lo :: hi :: rest => int16 lo hi :: int16_samples rest
  | _ => []
  end.

(** [np.frombuffer(buffer, dtype=np.int16)] on a little-endian host:
    [ValueError] unless the size is a multiple of 2. *)
Definition frombuffer_int16 (buffer : list Byte.byte) : result (list Z) :=
  if Nat.even (length buffer) then Ok (int16_samples buffer)
  else Raise ValueError.

(** Lines 231-240. *)
Definition read_audio (c : const) (path : string)
    (self : AudioEventMaintainer.t) (got : read_result) (env : cycle_env)
    (st : stream) : result stream :=
  let st :=
    if pipe_file st then st
    else Stream (tracker st) (calls st ++ [OpenPipe path]) true
                (audio_listener st) in
  let st :=
    Stream (tracker st) (calls st ++ [ReadPipe (chunk_size self)])
           (pipe_file st) (audio_listener st) in
  match got with
  | Bytes data =>
      match frombuffer_int16 data with
      | Ok audio =>
          match detect_audio c self env audio (tracker st) with
          | Ok (_, σ) =>
              Ok (Stream σ (calls st) (pipe_file st) (audio_listener st))
          | Raise e => Raise e
          end
      | Raise e => Raise e
      end
  | BrokenPipe =>
      let st :=
        Stream (tracker st) (calls st ++ [LogDump]) (pipe_file st)
               (audio_listener st) in
      Ok (restart_audio_pipe path st)
  end.

(** One turn of the loop at line 245: whether the signal handler has set
    the stop event before the test, and what the read and the cycle
    obtain. *)
Record turn := Turn {
  stop_requested : bool;
  got : read_result;
  cycle : cycle_env
}.

(** How far [run] has come: it has left the loop or returned, it is still
    looping after the turns given, or it has raised. *)
Inductive outcome :=
| Exited (st : stream)
| Looping (st : stream)
| Failed (e : exn).

(** Lines 245-246. *)
Fixpoint loop (c : const) (path : string) (self : AudioEventMaintainer.t)
    (turns : list turn) (st : stream) : outcome :=
  match turns with
  | [] => Looping st
  | t :: rest =>
      let σ :=
        if stop_requested t then Supervisor.set_stop_event (tracker st)
        else tracker st in
      let st := Stream σ (calls st) (pipe_file st) (audio_listener st) in
      if stop_is_set σ then Exited st
      else
        match read_audio c path self (got t) (cycle t) st with
        | Ok st => loop c path self rest st
        | Raise e => Failed e
        end
  end.

(** Lines 242-250.  [self.pipe_file] is [None] until the first read. *)
Definition run (c : const) (cache_dir : string)
    (self : AudioEventMaintainer.t) (turns : list turn) (st : stream)
    : outcome :=
  let path := pipe_path cache_dir self in
  match loop c path self turns (restart_audio_pipe path st) with
  | Exited st =>
      if pipe_file st then
        Exited (Stream (tracker st)
                       (calls st ++ [ClosePipe; StopFfmpeg; LogClose])
                       (pipe_file st) (audio_listener st))
      else Failed AttributeError
  | Looping st => Looping st
  | Failed e => Failed e
  end.

(** The worker as [__init__] leaves it (lines 163-165). *)
Definition fresh (σ : world) : stream := Stream σ [] false false.

End AudioStream.

(** * Vocabulary of the statements *)

Import AudioTfl AudioEventMaintainer.

(** Class [i] scores at least as high as class [j]. *)
Definition score_ge (res : list Q) (i j : nat) : Prop :=
  nth j res 0 <= nth i res 0.

(** The filled rows for a list of class ids. *)
Definition rows_of (res : list Q) (ids : list nat) : list row :=
  map (fun c => filled_row c (nth c res 0)) ids.

(** Filled rows followed by the untouched rows of [np.zeros((20, 6))]. *)
Definition padded (rows : list row) : list row :=
  rows ++ replicate (20 - length rows) zero_row.

(** Rows in non-increasing order of score. *)
Definition by_score_desc (r1 r2 : row) : Prop := d1 r2 <= d1 r1.

(** ** The shared dict *)

Section Lifecycle.

#[local] Open Scope string_scope.

Variable self : AudioEventMaintainer.t.

Let max_not_heard : Q := audio_max_not_heard (config self).
Let post_capture : Q := record_events_post_capture (config self).

(** An inner dict that is the event record of label [k]: it has an [id],
    a float [last_detection], and its [label] is [k]. *)
Definition record_of (k : string) (d : gmap string field) : Prop :=
  exists event_id t,
    d !! "id" = Some event_id /\ d !! "label" = Some (FStr k) /\
    d !! "last_detection" = Some (FNum t).

(** An inner dict without [last_detection], such as the metrics of a
    camera. *)
Definition quiet (d : gmap string field) : Prop :=
  d !! "last_detection" = None.

(** An entry that the expiry pass can process: [None], a dict without a
    time stamp, or the record of its own key. *)
Definition tracked (e : string * pyval) : Prop :=
  match e.2 with
  | None => True
  | Some d => quiet d \/ record_of e.1 d
  end.

(** The value carries a time stamp more than [max_not_heard] before
    [now]. *)
Definition stale (now : Q) (v : pyval) : bool :=
  match v with
  | Some d =>
      match d !! "last_detection" with
      | Some (FNum t) => Qltb max_not_heard (now - t)
      | _ => false
      end
  | None => false
  end.

(** What an expiry pass at [now] leaves in the slot of an entry. *)
Definition expire_entry (now : Q) (e : string * pyval) : string * pyval :=
  if stale now e.2 then (e.1, None) else e.

(** The end call an expiry pass at [now] issues for an entry, if any. *)
Definition end_call (now : Q) (e : string * pyval) : option effect :=
  match e.2 with
  | Some d =>
      match d !! "id", d !! "last_detection" with
      | Some event_id, Some (FNum t) =>
          if Qltb max_not_heard (now - t)
          then Some (Put event_id (t + post_capture))
          else None
      | _, _ => None
      end
  | None => None
  end.

(** The [label] field of an inner dict, when present, names its key. *)
Definition label_consistent (e : string * pyval) : Prop :=
  match e.2 with
  | None => True
  | Some d => d !! "label" = None \/ d !! "label" = Some (FStr e.1)
  end.

Definition store_ok (s : store) : Prop :=
  NoDup (keys s) /\ Forall label_consistent s.

(** The value holds an inner dict whose [label] field is [l]. *)
Definition has_label (l : string) (e : string * pyval) : bool :=
  match e.2 with
  | Some d => bool_decide (d !! "label" = Some (FStr l))
  | None => false
  end.

End Lifecycle.

(** ** Runs of one tracker *)

(** What happens to the tracker of one label over time: a detection of
    the label (with its score, the clock value and the answer the event
    store would give), or an expiry pass (with its clock value). *)
Inductive step :=
| Detection (score now : Q) (resp : response)
| Expiry (now : Q).

Fixpoint run (self : AudioEventMaintainer.t) (label : string)
    (steps : list step) : M unit :=
  match steps with
  | [] => ret tt
  | Detection score now resp :: rest =>
      do _ <- handle_detection self label score now resp;
      run self label rest
  | Expiry now :: rest =>
      do _ <- expire_detections self now;
      run self label rest
  end.

(** Every step comes at most [max_not_heard] after the latest detection
    before it; [last] is the time of the latest detection so far. *)
Fixpoint in_window (max_not_heard last : Q) (steps : list step) : Prop :=
  match steps with
  | [] => True
  | Detection _ now _ :: rest =>
      now - last <= max_not_heard /\ in_window max_not_heard now rest
  | Expiry now :: rest =>
      now - last <= max_not_heard /\ in_window max_not_heard last rest
  end.

(** The time of the latest detection after [steps]. *)
Fixpoint last_heard (last : Q) (steps : list step) : Q :=
  match steps with
  | [] => last
  | Detection _ now _ :: rest => last_heard now rest
  | Expiry _ :: rest => last_heard last rest
  end.

(** The states one tracker reaches from [σ0] by detections of listened
    labels and expiry passes that return. *)
Inductive reachable (self : AudioEventMaintainer.t) (σ0 : world)
    : world -> Prop :=
| reach_start : reachable self σ0 σ0
| reach_detection σ σ' label score now resp :
    reachable self σ0 σ ->
    label ∈ audio_listen (config self) ->
    handle_detection self label score now resp σ = Ok (tt, σ') ->
    reachable self σ0 σ'
| reach_expiry σ σ' now :
    reachable self σ0 σ ->
    expire_detections self now σ = Ok (tt, σ') ->
    reachable self σ0 σ'.

(** An entry without an open event: [None] or a dict without a time
    stamp. *)
Definition idle (e : string * pyval) : Prop :=
  match e.2 with
  | None => True
  | Some d => quiet d
  end.

(** What can be observed of an outcome: the dict at location [l] and the
    trace. *)
Definition observe (l : loc) (r : result (unit * world))
    : result (list (string * option (gmap string field)) * list effect) :=
  match r with
  | Ok (_, σ) => Ok (heap σ l, trace σ)
  | Raise e => Raise e
  end.

(** ** Rows, effects and samples *)

#[global] Instance row_eq_dec : EqDecision row.
Proof. solve_decision. Defined.

(** The score of a detection returned by [detect]. *)
Definition det_score (d : detection) : Q := d.1.2.

(** The detection that [detect] makes of a row of zeros: the first label
    of the vocabulary with score 0 and a box of zeros. *)
Definition padding_detection (l0 : string) : detection :=
  (l0, 0, (0, 0, 0, 0)).

(** The effect is an end call. *)
Definition is_put (e : effect) : Prop :=
  match e with
  | Put _ _ => True
  | _ => False
  end.

(** An entry after a pass: same key, and the value it had or [None]. *)
Definition kept_or_cleared (e e' : string * pyval) : Prop :=
  e'.1 = e.1 /\ (e'.2 = e.2 \/ e'.2 = None).

(** The effect is a create call for the camera of [self] and a label it
    listens for. *)
Definition is_listened_post (self : AudioEventMaintainer.t) (e : effect)
    : Prop :=
  match e with
  | Post camera label =>
      camera = name (config self) /\ label ∈ audio_listen (config self)
  | _ => False
  end.

(** The tensor that [detect_audio] hands to the detector (line 171). *)
Definition waveform_of (c : const) (audio : list Z) : list Q :=
  map (fun a => inject_Z a / AUDIO_MAX_BIT_RANGE c) audio.

(** A sample fits a signed 16-bit integer. *)
Definition int16_range (a : Z) : Prop := (-32768 <= a <= 32767)%Z.

(** ** Cameras served and calls of the read loop *)

(** The camera is one that [listen_to_audio] serves. *)
Definition served (cam : Supervisor.camera_entry) : Prop :=
  Supervisor.enabled cam && Supervisor.audio_enabled_in_config cam = true.

#[global] Instance served_dec cam : Decision (served cam).
Proof. unfold served. apply _. Defined.

(** The calls the loop makes once the pipe is open and the decoder runs:
    reads, dumps of the decoder's log, and restarts of pipe and decoder. *)
Definition steady_call (e : AudioStream.io_event) : Prop :=
  match e with
  | AudioStream.ReadPipe _ | AudioStream.LogDump | AudioStream.Mkfifo _ | AudioStream.StartFfmpeg true => True
  | _ => False
  end.

(** The call is a (re)start of the decoder. *)
Definition is_start (e : AudioStream.io_event) : bool :=
  match e with
  | AudioStream.StartFfmpeg _ => true
  | _ => false
  end.

(** The number of (re)starts of the decoder among the calls. *)
Definition ffmpeg_starts (l : list AudioStream.io_event) : nat :=
  length (filter (fun e => is_start e = true) l).

(** ** Concrete inputs *)

(** The score vector of the specification's scenario, [0.95, 0.82, 0.81,
    0.3, 0.0, ...], over a vocabulary of 21 labels. *)
Definition scenario_scores : list Q :=
  [0.95; 0.82; 0.81; 0.3] ++ replicate 17 0.

Definition scenario_labels : list string :=
  ["speech"%string; "bark"%string; "yell"%string; "scream"%string]
  ++ replicate 17 "other"%string.

Definition scenario_tfl : AudioTfl.t :=
  AudioTfl.Build scenario_labels (fun _ => scenario_scores).

Definition idle_world : world := World (fun _ => []) [] false.

Definition stopped_world : world := World (fun _ => []) [] true.

(** A camera listening for two labels, silence timeout 30 s, post-capture
    5 s, as in the end-to-end scenario of the specification. *)
Definition yard : CameraConfig :=
  Camera "yard"%string ["bark"%string; "speech"%string] 30 5.

Definition yard_const : const := Const 0.975 16000 32768.

Definition yard_worker : AudioEventMaintainer.t :=
  __init__ yard_const yard 0%nat scenario_tfl.

Definition yard_metrics (enabled : bool) : gmap string field :=
  <["audio_enabled"%string := FFlag enabled]>
    (<["record_enabled"%string := FFlag true]> ∅).

(** A world whose only dict, at location 0, is [s]. *)
Definition world_of (s : store) : world :=
  World (fun l => if decide (l = 0%nat) then s else []) [] false.

(** The shared dict at start-up: the metrics of the camera. *)
Definition fresh_store : store := [("yard"%string, Some (yard_metrics true))].

(** The shared dict with two open events, last heard at 0 and at 20. *)
Definition busy_store : store :=
  [("yard"%string, Some (yard_metrics true));
   ("bark"%string, Some (event_record (FStr "e1") "bark" 0));
   ("speech"%string, Some (event_record (FStr "e2") "speech" 20))].

Definition created (event_id : string) : response :=
  Response 200 [<["event_id"%string := FStr event_id]> ∅].

Definition refused : response := Response 500 [].

(** The shared dict of a camera whose audio processing is switched off
    while an event, last heard at 0, is open. *)
Definition disabled_store : store :=
  [("yard"%string, Some (yard_metrics false));
   ("bark"%string, Some (event_record (FStr "e1") "bark" 0))].

(** A late cycle: every clock read gives 100, every create call
    succeeds. *)
Definition late_cycle : cycle_env :=
  CycleEnv (fun _ => 100) (fun _ => created "e9") 100.

(** A camera that carries the name of a label it listens for. *)
Definition speech_camera : CameraConfig :=
  Camera "speech"%string ["speech"%string] 30 5.

Definition speech_worker : AudioEventMaintainer.t :=
  __init__ yard_const speech_camera 0%nat scenario_tfl.

Definition speech_store : store :=
  [("speech"%string, Some (yard_metrics true))].

(** The constants of a 0.975 s window at 11025 Hz. *)
Definition const_11025 : const := Const 0.975 11025 32768.


(** A second camera of the same process, with its own timeout and
    post-capture. *)
Definition porch : CameraConfig :=
  Camera "porch"%string ["bark"%string] 10 2.

Definition porch_worker : AudioEventMaintainer.t :=
  __init__ yard_const porch 0%nat scenario_tfl.

(** Three cameras; the third has audio switched off in its
    configuration. *)
Definition site_cameras : list Supervisor.camera_entry :=
  [Supervisor.CameraEntry yard true true; Supervisor.CameraEntry porch true true;
   Supervisor.CameraEntry speech_camera true false].

(** A camera whose silence timeout is negative. *)
Definition hasty : CameraConfig :=
  Camera "yard"%string ["bark"%string] (-1) 5.

Definition hasty_worker : AudioEventMaintainer.t :=
  __init__ yard_const hasty 0%nat scenario_tfl.

(** Constants of a window of two samples. *)
Definition tiny_const : const := Const 2 1 32768.

Definition tiny_worker : AudioEventMaintainer.t :=
  __init__ tiny_const yard 0%nat scenario_tfl.

(** Four bytes: the samples 1 and -1. *)
Definition two_samples : list Byte.byte :=
  [Byte.x01; Byte.x00; Byte.xff; Byte.xff].

(** A read that breaks, then a stop request. *)
Definition break_then_stop : list AudioStream.turn :=
  [AudioStream.Turn false AudioStream.BrokenPipe late_cycle; AudioStream.Turn true AudioStream.BrokenPipe late_cycle].

(** * Properties *)

(** ** Comparisons *)

Lemma Qltb_lt x y : Qltb x y = true <-> x < y.
Proof.
  unfold Qltb. rewrite negb_true_iff, <- not_true_iff_false, Qle_bool_iff.
  split; [apply Qnot_le_lt | apply Qlt_not_le].
Qed.

Lemma Qltb_ge x y : Qltb x y = false <-> y <= x.
Proof.
  unfold Qltb. rewrite negb_false_iff. apply Qle_bool_iff.
Qed.

(** ** Sorting of positions *)

Section Argsort.

Variable a : list Q.

Let key_le (p q : nat) : Prop := nth p a 0 <= nth q a 0.

Lemma insert_pos_perm p l : Np.insert_pos a p l ≡ₚ p :: l.
Proof.
  induction l as [|q l IH]; simpl; [done|].
  destruct (Qle_bool _ _); [done|].
  rewrite IH. apply Permutation_swap.
Qed.

Lemma insert_pos_sorted p l :
  StronglySorted key_le l -> StronglySorted key_le (Np.insert_pos a p l).
Proof.
  induction 1 as [|q l Hs IH Hq]; simpl.
  - repeat constructor.
  - destruct (Qle_bool _ _) eqn:E.
    + apply Qle_bool_iff in E. constructor; [by constructor|].
      constructor; [done|].
      eapply Forall_impl; [exact Hq|].
      intros r Hr. unfold key_le in *. lra.
    + constructor; [done|].
      rewrite insert_pos_perm. constructor; [|done].
      assert (~ nth p a 0 <= nth q a 0) as Hn
        by (rewrite <- Qle_bool_iff, E; discriminate).
      unfold key_le. lra.
Qed.

Lemma argsort_perm : Np.argsort a ≡ₚ seq 0 (length a).
Proof.
  unfold Np.argsort. induction (seq 0 (length a)) as [|p l IH]; simpl; [done|].
  by rewrite insert_pos_perm, IH.
Qed.

Lemma argsort_sorted : StronglySorted key_le (Np.argsort a).
Proof.
  unfold Np.argsort. induction (seq 0 (length a)) as [|p l IH]; simpl.
  - constructor.
  - by apply insert_pos_sorted.
Qed.

Lemma argsort_in_range : Forall (fun p => (p < length a)%nat) (Np.argsort a).
Proof.
  rewrite argsort_perm. apply Forall_forall. intros p Hp.
  apply elem_of_seq in Hp. lia.
Qed.

End Argsort.

Lemma StronglySorted_with {A} (R : relation A) (P : A -> Prop) l :
  StronglySorted R l -> Forall P l ->
  StronglySorted (fun x y => P x /\ P y /\ R x y) l.
Proof.
  induction 1 as [|x l Hs IH Hx]; intros HP; [constructor|].
  apply Forall_cons in HP as [Hpx HP].
  constructor; [by apply IH|].
  apply Forall_forall. intros y Hy.
  rewrite Forall_forall in Hx, HP. auto.
Qed.

Lemma StronglySorted_filter {A} (R : relation A) (P : A -> Prop)
    `{!forall x, Decision (P x)} l :
  StronglySorted R l -> StronglySorted R (filter P l).
Proof.
  induction 1 as [|x l Hs IH Hx]; [constructor|].
  rewrite filter_cons. destruct (decide (P x)); [|done].
  constructor; [done|].
  apply Forall_forall. intros y Hy%list_elem_of_filter.
  rewrite Forall_forall in Hx. apply Hx, Hy.
Qed.

Lemma StronglySorted_take {A} (R : relation A) n l :
  StronglySorted R l -> StronglySorted R (take n l).
Proof.
  intros Hs. rewrite <- (take_drop n l) in Hs.
  by apply StronglySorted_app_1_l in Hs.
Qed.

(** ** The ranking stage *)

Lemma top_class_ids_sorted res part :
  StronglySorted (score_ge res) (top_class_ids res part).
Proof.
  unfold top_class_ids, Np.select. apply StronglySorted_filter.
  set (ids := take 20 part).
  set (keys := map Qopp (Np.take_idx 0 res ids)).
  unfold Np.take_idx at 1.
  eapply StronglySorted_fmap;
    [|apply StronglySorted_with;
       [apply argsort_sorted | apply argsort_in_range]].
  intros p q (Hp & Hq & Hle). simpl in Hle.
  assert (forall r, (r < length keys)%nat ->
            nth r keys 0 = - nth (nth r ids O) res 0) as Hk.
  { intros r Hr. unfold keys, Np.take_idx. rewrite map_map.
    unfold keys, Np.take_idx in Hr. rewrite map_map in Hr.
    rewrite (nth_indep _ 0 (- nth O res 0)) by exact Hr.
    by rewrite (map_nth (fun i => - nth i res 0)). }
  rewrite !Hk in Hle by done. unfold score_ge. lra.
Qed.

Lemma top_class_ids_positive res part :
  Forall (fun c => 0 < nth c res 0 /\ (c < length res)%nat)
         (top_class_ids res part).
Proof.
  unfold top_class_ids, Np.select. apply Forall_forall.
  intros c [Hc _]%list_elem_of_filter.
  destruct (nth_lookup_or_length (map (fun x => Qltb 0 x) res) c false)
    as [Hl | Hl].
  - rewrite Hc in Hl. rewrite list_lookup_fmap in Hl.
    destruct (res !! c) as [x|] eqn:Hx; [|done].
    simpl in Hl. injection Hl as Hl.
    apply Qltb_lt in Hl.
    rewrite (nth_lookup_Some _ _ _ _ Hx).
    split; [done|]. by apply lookup_lt_Some in Hx.
  - rewrite nth_overflow in Hc by (rewrite length_map in *; lia). done.
Qed.

Lemma length_rows_of res ids : length (rows_of res ids) = length ids.
Proof. apply length_map. Qed.

Lemma fill_step res ids i c :
  (i < 20)%nat -> ids !! i = Some c ->
  <[i := filled_row c (nth c res 0)]> (padded (rows_of res (take i ids)))
  = padded (rows_of res (take (S i) ids)).
Proof.
  intros Hi Hc. pose proof (lookup_lt_Some _ _ _ Hc) as Hlen.
  unfold padded. rewrite !length_rows_of, !length_take.
  rewrite insert_app_r_alt by (rewrite length_rows_of, length_take; lia).
  rewrite length_rows_of, length_take.
  replace (i `min` length ids)%nat with i by lia.
  replace (S i `min` length ids)%nat with (S i) by lia.
  replace (20 - i)%nat with (S (20 - S i)) by lia.
  replace (i - i)%nat with O by lia. simpl.
  rewrite (take_S_r _ _ _ Hc). unfold rows_of.
  rewrite map_app. simpl. by rewrite <- app_assoc.
Qed.

Lemma fill_spec res ids n i :
  (i <= 20)%nat -> (i + n = length ids)%nat ->
  Forall (fun c => 0.4 <= nth c res 0) (take i ids) ->
  exists k, (k <= 20)%nat /\ (k <= length ids)%nat /\
    Forall (fun c => 0.4 <= nth c res 0) (take k ids) /\
    fill ids (Np.take_idx 0 res ids) n i (padded (rows_of res (take i ids)))
    = padded (rows_of res (take k ids)).
Proof.
  revert i. induction n as [|n IH]; intros i Hi Hn Hok; simpl.
  - exists i. repeat split; [done | lia | done].
  - destruct (lookup_lt_is_Some_2 ids i) as [c Hc]; [lia|].
    assert (nth i (Np.take_idx 0 res ids) 0 = nth c res 0) as ->.
    { apply nth_lookup_Some. unfold Np.take_idx.
      change (map ?f ?l) with (f <$> l). by rewrite list_lookup_fmap, Hc. }
    rewrite (nth_lookup_Some _ _ _ _ Hc).
    destruct (Qltb (nth c res 0) 0.4) eqn:Hlow; simpl.
    { exists i. repeat split; [done | lia | done]. }
    destruct (Nat.eqb_spec i 20) as [->|Hne].
    { exists 20%nat. repeat split; [done | lia | done]. }
    rewrite fill_step by (done || lia).
    apply IH; [lia | lia |].
    rewrite (take_S_r _ _ _ Hc). apply Forall_app. split; [done|].
    constructor; [|done]. by apply Qltb_ge.
Qed.

(** The array built by lines 98-121, whatever partition NumPy chose: at
    most 20 filled rows, in the order of [top_class_ids], each with a score
    of at least 0.4, then zero rows up to 20. *)
Lemma rank_from_spec res part :
  exists ids,
    (length ids <= 20)%nat /\
    rank_from res part = padded (rows_of res ids) /\
    Forall (fun c => 0.4 <= nth c res 0 /\ (c < length res)%nat) ids /\
    StronglySorted (score_ge res) ids.
Proof.
  unfold rank_from.
  set (ids := top_class_ids res part).
  destruct (fill_spec res ids (length ids) 0) as (k & Hk & Hlen & Hok & Heq);
    [lia | done | by rewrite take_0 |].
  exists (take k ids). split; [rewrite length_take; lia|].
  split.
  { unfold Np.take_idx at 2. rewrite length_map. exact Heq. }
  split.
  - pose proof (top_class_ids_positive res part) as Hpos.
    fold ids in Hpos. apply (Forall_take _ k) in Hpos.
    rewrite Forall_forall in Hok, Hpos. apply Forall_forall.
    intros c Hc. split; [by apply Hok | by apply Hpos].
  - apply StronglySorted_take, top_class_ids_sorted.
Qed.

Lemma padded_rows_sorted res ids :
  Forall (fun c => 0.4 <= nth c res 0) ids ->
  StronglySorted (score_ge res) ids ->
  StronglySorted by_score_desc (padded (rows_of res ids)).
Proof.
  intros Hok Hs. unfold padded. apply StronglySorted_app_2.
  - intros r1 r2 [c [-> Hc]]%list_elem_of_fmap [-> _]%elem_of_replicate.
    rewrite Forall_forall in Hok. specialize (Hok c Hc).
    unfold by_score_desc. simpl. lra.
  - unfold rows_of. eapply StronglySorted_fmap; [|exact Hs].
    intros x y Hxy. exact Hxy.
  - induction (20 - length (rows_of res ids))%nat as [|n IH]; simpl.
    + constructor.
    + constructor; [exact IH|]. apply Forall_forall.
      intros r [-> _]%elem_of_replicate. unfold by_score_desc. simpl. lra.
Qed.

(** A score vector of 20 classes or fewer makes [np.argpartition]
    raise. *)
Lemma detect_raw_short_vector self tensor_input σ :
  (length (interpreter self tensor_input) <= 20)%nat ->
  _detect_raw self tensor_input σ = Raise ValueError.
Proof.
  intros Hlen. unfold _detect_raw, rank, Np.argpartition.
  rewrite length_map. by rewrite decide_False by lia.
Qed.

(** What the ranking computes on a score vector of more than 20
    classes. *)
Lemma rank_spec res :
  (20 < length res)%nat ->
  exists rows,
    (length rows <= 20)%nat /\
    rank res = Ok (rows ++ replicate (20 - length rows) zero_row) /\
    Forall (fun r => 0.4 <= d1 r /\
              exists c, (c < length res)%nat /\
                        r = filled_row c (nth c res 0)) rows /\
    StronglySorted by_score_desc
      (rows ++ replicate (20 - length rows) zero_row).
Proof.
  intros Hlen. unfold rank, Np.argpartition. rewrite length_map.
  destruct (decide (20 < length res)%nat) as [_|]; [|done].
  destruct (rank_from_spec res (Np.argsort (map Qopp res)))
    as (ids & Hids & -> & Hok & Hs).
  exists (rows_of res ids). rewrite length_rows_of.
  split; [done|]. split.
  { unfold padded. by rewrite length_rows_of. }
  split.
  - unfold rows_of. apply Forall_fmap. eapply Forall_impl; [exact Hok|].
    intros c [H1 H2]. simpl. split; [exact H1|]. by exists c.
  - pose proof (padded_rows_sorted res ids) as Hp. unfold padded in Hp.
    rewrite length_rows_of in Hp. apply Hp; [|done].
    eapply Forall_impl; [exact Hok|]. by intros c [H1 _].
Qed.

(** C1, as the code bears it out: on a score vector of more than 20
    classes [_detect_raw] returns, after one run of the engine, an array of
    exactly 20 rows; the rows are a run of filled rows, each holding a
    class index of the vector with its score, which is at least 0.4, then
    rows of zeros; and the 20 scores are in non-increasing order. *)
Theorem detect_raw_padded_ranking self tensor_input σ :
  (20 < length (interpreter self tensor_input))%nat ->
  let res := interpreter self tensor_input in
  exists out rows,
    _detect_raw self tensor_input σ = Ok (out, emit (Invoke tensor_input) σ) /\
    length out = 20%nat /\
    out = rows ++ replicate (20 - length rows) zero_row /\
    Forall (fun r => 0.4 <= d1 r /\
              exists c, (c < length res)%nat /\
                        r = filled_row c (nth c res 0)) rows /\
    StronglySorted by_score_desc out.
Proof.
  intros Hlen res.
  destruct (rank_spec res Hlen) as (rows & Hle & Hrank & Hrows & Hsorted).
  exists (rows ++ replicate (20 - length rows) zero_row), rows.
  split.
  - unfold _detect_raw. fold res. by rewrite Hrank.
  - split; [|by repeat split].
    rewrite length_app, length_replicate. lia.
Qed.

Lemma detect_raw_padded_ranking_witness :
  exists out rows,
    _detect_raw scenario_tfl [] idle_world
      = Ok (out, emit (Invoke []) idle_world) /\
    length out = 20%nat /\
    out = rows ++ replicate (20 - length rows) zero_row /\
    Forall (fun r => 0.4 <= d1 r /\
              exists c, (c < length scenario_scores)%nat /\
                        r = filled_row c (nth c scenario_scores 0)) rows /\
    StronglySorted by_score_desc out.
Proof.
  apply (detect_raw_padded_ranking scenario_tfl [] idle_world).
  vm_compute. lia.
Defined.

(** C1 as stated fails: on the scenario's vector the returned array holds
    three filled rows and seventeen rows of zeros, whose score 0 is not
    positive. *)
Lemma detect_raw_returns_zero_rows :
  exists out σ',
    _detect_raw scenario_tfl [] idle_world = Ok (out, σ') /\
    out !! 3%nat = Some zero_row /\
    ~ Forall (fun r => 0 < d1 r) out.
Proof.
  eexists _, _. split; [vm_compute; reflexivity|].
  split; [reflexivity|].
  intros H. rewrite Forall_forall in H.
  specialize (H zero_row). simpl in H.
  assert (zero_row ∈ filled_row 0 0.95 :: filled_row 1 0.82
            :: filled_row 2 0.81 :: replicate 17 zero_row) as Hin.
  { do 3 apply list_elem_of_further. apply list_elem_of_here. }
  apply H in Hin. lra.
Qed.

(** ** The threshold cut of [detect] *)

Lemma detect_loop_spec self thr raw acc out :
  detect_loop self thr raw acc = Ok out ->
  exists pre post dets,
    raw = pre ++ post /\ out = acc ++ dets /\
    Forall (fun d => thr <= d1 d) pre /\
    match post with [] => True | d :: _ => d1 d < thr end /\
    Forall2 (fun d det => as_detection self d = Ok det) pre dets.
Proof.
  revert acc. induction raw as [|d raw IH]; intros acc; simpl.
  - intros [= <-]. exists [], [], [].
    split; [done|]. split; [by rewrite app_nil_r|].
    repeat split; constructor.
  - destruct (Qltb (d1 d) thr) eqn:Hlow.
    + intros [= <-]. apply Qltb_lt in Hlow.
      exists [], (d :: raw), [].
      split; [done|]. split; [by rewrite app_nil_r|].
      repeat split; (done || constructor).
    + apply Qltb_ge in Hlow.
      destruct (as_detection self d) as [det|e] eqn:Hdet; [|done].
      intros (pre & post & dets & -> & -> & Hpre & Hpost & Hdets)%IH.
      exists (d :: pre), post, (det :: dets).
      rewrite <- app_assoc. repeat split; try done.
      * by constructor.
      * by constructor.
Qed.

Lemma detect_loop_total self thr raw acc :
  Forall (fun d => exists det, as_detection self d = Ok det) raw ->
  exists out, detect_loop self thr raw acc = Ok out.
Proof.
  intros H. revert acc. induction H as [|d raw [det Hd] _ IH]; intros acc.
  - by exists acc.
  - simpl. destruct (Qltb (d1 d) thr); [by exists acc|].
    rewrite Hd. apply IH.
Qed.

Lemma as_detection_filled self c s :
  (c < length (labels self))%nat ->
  exists det, as_detection self (filled_row c s) = Ok det.
Proof.
  intros Hc. unfold as_detection, label_of, py_int. simpl.
  rewrite Z.quot_1_r.
  destruct (decide (0 <= Z.of_nat c)%Z) as [_|]; [|lia].
  rewrite Nat2Z.id.
  destruct (lookup_lt_is_Some_2 (labels self) c Hc) as [l ->]. eauto.
Qed.

Lemma as_detection_zero self :
  (0 < length (labels self))%nat ->
  exists det, as_detection self zero_row = Ok det.
Proof.
  intros Hc. unfold as_detection, label_of, py_int. simpl.
  destruct (lookup_lt_is_Some_2 (labels self) 0 Hc) as [l Hl].
  change (Z.to_nat (0 ÷ 1)) with O. rewrite Hl. eauto.
Qed.

(** C2: while the stop event is clear, whatever [detect] returns comes from
    the rows of [_detect_raw] up to, and without, the first row whose score
    is below the threshold; nothing from that row on appears, and the
    result is empty when every raw score is below the threshold.  It does
    return when the vocabulary covers the score vector. *)
Theorem detect_prefix_cut self tensor_input threshold σ :
  stop_is_set σ = false ->
  (forall out σ',
     detect self tensor_input threshold σ = Ok (out, σ') ->
     exists raw pre post,
       _detect_raw self tensor_input σ = Ok (raw, σ') /\
       raw = pre ++ post /\
       Forall (fun d => threshold <= d1 d) pre /\
       match post with [] => True | d :: _ => d1 d < threshold end /\
       Forall2 (fun d det => as_detection self d = Ok det) pre out /\
       (Forall (fun d => d1 d < threshold) raw -> out = [])) /\
  ((20 < length (interpreter self tensor_input))%nat ->
   (length (interpreter self tensor_input) <= length (labels self))%nat ->
   exists out,
     detect self tensor_input threshold σ
       = Ok (out, emit (Invoke tensor_input) σ)).
Proof.
  intros Hrun. split.
  - intros out σ'. unfold detect. rewrite Hrun.
    destruct (_detect_raw self tensor_input σ) as [[raw σ1]|e] eqn:Hraw;
      [|done].
    destruct (detect_loop self threshold raw []) as [dets|e] eqn:Hloop;
      [|done].
    intros [= <- <-].
    apply detect_loop_spec in Hloop
      as (pre & post & dets' & -> & -> & Hpre & Hpost & Hdets).
    exists (pre ++ post), pre, post. simpl. repeat split; try done.
    intros Hall. apply Forall_app in Hall as [Hall _].
    destruct Hdets as [|d det pre dets' _ _]; [done|].
    apply Forall_cons in Hall as [Hd _].
    apply Forall_cons in Hpre as [Hd' _]. lra.
  - intros Hlen Hlab. unfold detect. rewrite Hrun.
    destruct (rank_spec _ Hlen) as (rows & _ & Hrank & Hrows & _).
    unfold _detect_raw. rewrite Hrank.
    destruct (detect_loop_total self threshold
                (rows ++ replicate (20 - length rows) zero_row) [])
      as [out ->]; [|by exists out].
    apply Forall_app. split.
    + eapply Forall_impl; [exact Hrows|].
      intros r (_ & c & Hc & ->). apply as_detection_filled. lia.
    + apply Forall_forall. intros r [-> _]%elem_of_replicate.
      apply as_detection_zero. lia.
Qed.

Lemma detect_prefix_cut_witness :
  exists out raw pre post,
    detect scenario_tfl [] 0.8 idle_world
    = Ok (out, emit (Invoke []) idle_world) /\
    _detect_raw scenario_tfl [] idle_world
    = Ok (raw, emit (Invoke []) idle_world) /\
    raw = pre ++ post /\
    Forall (fun d => 0.8 <= d1 d) pre /\
    match post with [] => True | d :: _ => d1 d < 0.8 end /\
    Forall2 (fun d det => as_detection scenario_tfl d = Ok det) pre out.
Proof.
  destruct (detect_prefix_cut scenario_tfl [] 0.8 idle_world eq_refl)
    as [Hcut Hret].
  destruct Hret as [out Hout]; [vm_compute; lia | vm_compute; lia |].
  destruct (Hcut out _ Hout) as (raw & pre & post & H1 & H2 & H3 & H4 & H5 & _).
  by exists out, raw, pre, post.
Defined.

(** The scenario of the specification: threshold 0.8 on raw scores
    [0.95, 0.82, 0.81, 0.3, 0.0, ...] keeps the first three, in order. *)
Example detect_scenario :
  detect scenario_tfl [] 0.8 idle_world
  = Ok ([("speech"%string, 0.95, (-1, -1, -1, -1));
         ("bark"%string, 0.82, (-1, -1, -1, -1));
         ("yell"%string, 0.81, (-1, -1, -1, -1))],
        emit (Invoke []) idle_world).
Proof. vm_compute. reflexivity. Qed.

(** C8: with the stop event set, [detect] returns the empty list and
    leaves the world as it was, so no run of the engine is recorded. *)
Theorem detect_stopped self tensor_input threshold σ :
  stop_is_set σ = true ->
  detect self tensor_input threshold σ = Ok ([], σ).
Proof. intros H. unfold detect. by rewrite H. Qed.

Lemma detect_stopped_witness :
  detect scenario_tfl [] 0.8 stopped_world = Ok ([], stopped_world).
Proof. apply (detect_stopped scenario_tfl [] 0.8 stopped_world). reflexivity. Defined.

(** By contrast a call that is not stopped records its run. *)
Lemma detect_running_invokes self tensor_input threshold σ out σ' :
  stop_is_set σ = false ->
  detect self tensor_input threshold σ = Ok (out, σ') ->
  trace σ' = trace σ ++ [Invoke tensor_input].
Proof.
  intros Hrun. unfold detect, _detect_raw. rewrite Hrun.
  destruct (rank _); [|done].
  destruct (detect_loop _ _ _ _); [|done].
  by intros [= <- <-].
Qed.

(** ** Operations on the insertion-ordered dict *)

Lemma keys_dict_set_in k v (s : store) :
  k ∈ keys s -> keys (dict_set k v s) = keys s.
Proof.
  unfold keys. induction s as [|[k' v'] s IH]; simpl.
  - by intros ?%elem_of_nil.
  - intros Hin. destruct (decide (k' = k)); simpl; [done|].
    f_equal. apply IH. apply elem_of_cons in Hin as [?|?]; [congruence|done].
Qed.

Lemma keys_dict_set_notin k v (s : store) :
  k ∉ keys s -> keys (dict_set k v s) = keys s ++ [k].
Proof.
  unfold keys. induction s as [|[k' v'] s IH]; simpl; [done|].
  intros Hin. apply not_elem_of_cons in Hin as [Hne Hin].
  destruct (decide (k' = k)); simpl; [congruence|].
  f_equal. by apply IH.
Qed.

Lemma dict_lookup_elem k v (s : store) :
  dict_lookup k s = Some v -> (k, v) ∈ s.
Proof.
  induction s as [|[k' v'] s IH]; simpl; [done|].
  destruct (decide (k' = k)) as [->|].
  - intros [= ->]. apply list_elem_of_here.
  - intros H. apply list_elem_of_further. by apply IH.
Qed.

Lemma dict_lookup_set_eq k v (s : store) :
  dict_lookup k (dict_set k v s) = Some v.
Proof.
  induction s as [|[k' v'] s IH]; simpl.
  - by destruct (decide (k = k)).
  - destruct (decide (k' = k)) as [->|Hne] eqn:E; simpl; by rewrite E.
Qed.

Lemma dict_set_middle k v v0 (l1 l2 : store) :
  k ∉ keys l1 ->
  dict_set k v (l1 ++ (k, v0) :: l2) = l1 ++ (k, v) :: l2.
Proof.
  unfold keys. induction l1 as [|[k' v'] l1 IH]; simpl.
  - intros _. by destruct (decide (k = k)).
  - intros [Hne Hin]%not_elem_of_cons.
    destruct (decide (k' = k)); [congruence|]. f_equal. by apply IH.
Qed.

Lemma store_split (s : store) i e :
  s !! i = Some e -> s = take i s ++ e :: drop (S i) s.
Proof.
  intros H. rewrite <- (take_drop i s) at 1. f_equal.
  by apply drop_S.
Qed.

(** ** The expiry pass *)

Section Expiry.

Variable self : AudioEventMaintainer.t.
Variable now : Q.

Let l0 : loc := detections self.
Let max_not_heard : Q := audio_max_not_heard (config self).

Hypothesis max_not_heard_nonneg : 0 <= max_not_heard.

Lemma end_call_stale e :
  tracked e ->
  if stale self now e.2 then is_Some (end_call self now e)
  else end_call self now e = None.
Proof.
  destruct e as [k [d|]]; unfold tracked, stale, end_call; simpl; [|done].
  intros [Hq | (id & t & Hid & _ & Ht)].
  - unfold quiet in Hq. rewrite Hq. by destruct (d !! "id"%string).
  - rewrite Hid, Ht. by destruct (Qltb _ _).
Qed.

Lemma expire_one_tracked k v σ :
  tracked (k, v) ->
  expire_one self now v σ
  = Ok (tt, match end_call self now (k, v) with
            | Some c => write l0 (dict_set k None (heap σ l0)) (emit c σ)
            | None => σ
            end).
Proof.
  unfold tracked, expire_one, end_call, last_detection_or. simpl.
  destruct v as [d|]; simpl; [|done].
  destruct (bool_decide (d = ∅)) eqn:Hempty; simpl.
  { apply bool_decide_eq_true in Hempty as ->. by rewrite !lookup_empty. }
  intros [Hq | (id & t & Hid & Hl & Ht)].
  - unfold quiet in Hq. rewrite Hq.
    assert (Qltb (audio_max_not_heard (config self)) (now - now) = false)
      as ->.
    { apply Qltb_ge. fold max_not_heard. lra. }
    by destruct (d !! "id"%string).
  - rewrite Hid, Ht, Hl.
    by destruct (Qltb (audio_max_not_heard (config self)) (now - t)).
Qed.

Lemma expire_entry_end_call e :
  tracked e ->
  expire_entry self now e
  = match end_call self now e with
    | Some _ => (e.1, None)
    | None => e
    end.
Proof.
  intros He. pose proof (end_call_stale e He) as H.
  unfold expire_entry. destruct (stale self now e.2).
  - by destruct H as [c ->].
  - by rewrite H.
Qed.

Lemma expire_loop_spec s0 :
  NoDup (keys s0) -> Forall tracked s0 ->
  forall n i σ,
    (i + n = length s0)%nat ->
    heap σ l0 = map (expire_entry self now) (take i s0) ++ drop i s0 ->
    exists σ',
      expire_loop self now (length s0) n i σ = Ok (tt, σ') /\
      heap σ' l0 = map (expire_entry self now) s0 /\
      (forall l, l ≠ l0 -> heap σ' l = heap σ l) /\
      trace σ' = trace σ ++ omap (end_call self now) (drop i s0) /\
      stop_is_set σ' = stop_is_set σ.
Proof.
  intros Hnd Htr. induction n as [|n IH]; intros i σ Hn Hheap; simpl;
    fold l0; rewrite Hheap.
  all: rewrite decide_True
    by (rewrite length_app, length_map, length_take, length_drop; lia).
  - exists σ. split; [done|]. split.
    { rewrite Hheap, take_ge, drop_ge by lia. by rewrite app_nil_r. }
    split; [done|]. split; [|done].
    rewrite drop_ge by lia. by rewrite app_nil_r.
  - destruct (lookup_lt_is_Some_2 s0 i) as [[k v] Hi]; [lia|].
    rewrite lookup_app_r by (rewrite length_map, length_take; lia).
    rewrite length_map, length_take, lookup_drop.
    replace (i + (i `min` length s0 - i `min` length s0))%nat with i by lia.
    replace (i - i `min` length s0)%nat with O by lia.
    rewrite Nat.add_0_r, Hi.
    assert (tracked (k, v)) as Hkv.
    { rewrite Forall_forall in Htr. apply Htr.
      by eapply list_elem_of_lookup_2. }
    rewrite (expire_one_tracked k v σ Hkv).
    pose proof (expire_entry_end_call _ Hkv) as HE. simpl in HE.
    pose proof (store_split _ _ _ Hi) as Hsplit.
    assert (k ∉ keys (map (expire_entry self now) (take i s0))) as Hfresh.
    { rewrite Hsplit in Hnd. unfold keys in *. rewrite fmap_app in Hnd.
      apply NoDup_app in Hnd as (_ & Hnd & _).
      intros Hin. apply (Hnd k).
      - apply list_elem_of_fmap in Hin as [e [-> He]].
        apply list_elem_of_fmap in He as [e' [-> He']].
        apply list_elem_of_fmap. exists e'. split; [|done].
        unfold expire_entry. by destruct (stale self now e'.2).
      - simpl. apply list_elem_of_here. }
    set (σ1 := match end_call self now (k, v) with
               | Some c => write l0 (dict_set k None (heap σ l0)) (emit c σ)
               | None => σ
               end).
    destruct (IH (S i) σ1) as (σ' & Hrun & Hh & Hoth & Htrace & Hstop);
      [lia | | ].
    { rewrite (take_S_r _ _ _ Hi), map_app, <- app_assoc. simpl.
      rewrite HE. subst σ1.
      destruct (end_call self now (k, v)) as [c|]; simpl.
      - rewrite decide_True by done. rewrite Hheap.
        rewrite (drop_S _ _ _ Hi). by apply dict_set_middle.
      - rewrite Hheap. by rewrite (drop_S _ _ _ Hi). }
    exists σ'. split; [exact Hrun|]. split; [exact Hh|].
    split; [|split].
    + intros l Hl. rewrite (Hoth l Hl). subst σ1.
      destruct (end_call self now (k, v)); simpl; [|done].
      by rewrite decide_False.
    + rewrite Htrace, (drop_S _ _ _ Hi). simpl. subst σ1.
      destruct (end_call self now (k, v)); simpl; [|done].
      by rewrite <- app_assoc.
    + rewrite Hstop. subst σ1. by destruct (end_call self now (k, v)).
Qed.

End Expiry.

Lemma dict_lookup_map (f : string * pyval -> string * pyval) k (s : store) :
  (forall e, (f e).1 = e.1) ->
  dict_lookup k (map f s) = (fun v => (f (k, v)).2) <$> dict_lookup k s.
Proof.
  intros Hf. induction s as [|[k' v'] s IH]; simpl; [done|].
  pose proof (Hf (k', v')) as Hk. destruct (f (k', v')) as [k'' v''] eqn:E.
  simpl in Hk. subst k''.
  destruct (decide (k' = k)) as [->|]; simpl; [by rewrite E | exact IH].
Qed.

(** The outcome of one expiry pass over well-formed entries: the dict
    entry by entry, and the end calls in the order of the entries. *)
Lemma expire_detections_spec self now σ :
  let s := heap σ (detections self) in
  0 <= audio_max_not_heard (config self) ->
  NoDup (keys s) ->
  Forall tracked s ->
  exists σ',
    expire_detections self now σ = Ok (tt, σ') /\
    heap σ' (detections self) = map (expire_entry self now) s /\
    trace σ' = trace σ ++ omap (end_call self now) s.
Proof.
  intros s Hmax Hnd Htr.
  destruct (expire_loop_spec self now Hmax s Hnd Htr (length s) 0 σ)
    as (σ' & Hrun & Hheap & _ & Htrace & _); [done | done |].
  by exists σ'.
Qed.

(** C3: one expiry pass over a dict of well-formed entries (with a
    non-negative [max_not_heard]) returns; it visits the entries in order,
    and for an event record last heard more than [max_not_heard] before
    [now] it issues one end call, whose end time is
    [last_detection + post_capture], and puts [None] in the slot, whatever
    the store answers; every other entry is left as it was and yields no
    call. *)
Theorem expire_detections_pass self now σ :
  let s := heap σ (detections self) in
  let max_not_heard := audio_max_not_heard (config self) in
  let post_capture := record_events_post_capture (config self) in
  0 <= max_not_heard ->
  NoDup (keys s) ->
  Forall tracked s ->
  exists σ',
    expire_detections self now σ = Ok (tt, σ') /\
    heap σ' (detections self) = map (expire_entry self now) s /\
    trace σ' = trace σ ++ omap (end_call self now) s /\
    (forall k v, dict_lookup k s = Some v ->
       dict_lookup k (heap σ' (detections self))
       = Some (expire_entry self now (k, v)).2) /\
    (forall k d event_id t,
       d !! "id"%string = Some event_id ->
       d !! "last_detection"%string = Some (FNum t) ->
       (max_not_heard < now - t ->
        expire_entry self now (k, Some d) = (k, None) /\
        end_call self now (k, Some d)
        = Some (Put event_id (t + post_capture))) /\
       (now - t <= max_not_heard ->
        expire_entry self now (k, Some d) = (k, Some d) /\
        end_call self now (k, Some d) = None)).
Proof.
  intros s max_not_heard post_capture Hmax Hnd Htr.
  destruct (expire_detections_spec self now σ Hmax Hnd Htr)
    as (σ' & Hrun & Hheap & Htrace).
  exists σ'. split; [exact Hrun|]. split; [exact Hheap|].
  split; [exact Htrace|]. split.
  - intros k v Hk. rewrite Hheap, dict_lookup_map; fold s.
    + by rewrite Hk.
    + intros e. unfold expire_entry. by destruct (stale self now e.2).
  - intros k d event_id t Hid Ht.
    unfold expire_entry, end_call, stale. simpl. rewrite Hid, Ht.
    fold max_not_heard post_capture.
    split; intros H.
    + apply Qltb_lt in H. by rewrite H.
    + apply Qltb_ge in H. by rewrite H.
Qed.

Lemma tracked_busy_store : Forall tracked busy_store.
Proof.
  apply Forall_cons. split; [left; reflexivity|].
  apply Forall_cons. split; [right; by exists (FStr "e1"), 0|].
  apply Forall_cons. split; [right; by exists (FStr "e2"), 20|].
  constructor.
Qed.

Lemma expire_detections_pass_witness :
  exists σ',
    expire_detections yard_worker 41 (world_of busy_store) = Ok (tt, σ') /\
    heap σ' 0%nat
    = [("yard"%string, Some (yard_metrics true));
       ("bark"%string, None);
       ("speech"%string, Some (event_record (FStr "e2") "speech" 20))] /\
    trace σ' = [Put (FStr "e1") (0 + 5)].
Proof.
  destruct (expire_detections_pass yard_worker 41 (world_of busy_store))
    as (σ' & Hrun & Hheap & Htrace & _).
  - vm_compute. discriminate.
  - apply (bool_decide_unpack _). vm_compute. reflexivity.
  - exact tracked_busy_store.
  - exists σ'. split; [exact Hrun|]. split; [exact Hheap | exact Htrace].
Defined.

(** ** Detections *)

Lemma event_record_touch event_id label t t' :
  <["last_detection"%string := FNum t']> (event_record event_id label t)
  = event_record event_id label t'.
Proof.
  unfold event_record.
  rewrite (insert_insert_ne _ "last_detection"%string "id"%string) by done.
  rewrite (insert_insert_ne _ "last_detection"%string "label"%string) by done.
  by rewrite insert_insert_eq.
Qed.

Lemma record_of_event_record event_id label t :
  record_of label (event_record event_id label t).
Proof. by exists event_id, t. Qed.

Lemma dict_set_set k v v' (s : store) :
  dict_set k v (dict_set k v' s) = dict_set k v s.
Proof.
  induction s as [|[k' v''] s IH]; simpl.
  - by destruct (decide (k = k)).
  - destruct (decide (k' = k)) as [->|Hne] eqn:E; simpl; rewrite E;
      [done | by rewrite IH].
Qed.

Lemma Forall_dict_set (P : string * pyval -> Prop) k v (s : store) :
  Forall P s -> P (k, v) -> Forall P (dict_set k v s).
Proof.
  intros Hs Hkv. induction Hs as [|[k' v'] s Hx Hs IH]; simpl.
  - by constructor.
  - destruct (decide (k' = k)) as [->|]; by constructor.
Qed.

Lemma NoDup_keys_dict_set k v (s : store) :
  NoDup (keys s) -> NoDup (keys (dict_set k v s)).
Proof.
  intros Hnd. destruct (decide (k ∈ keys s)) as [Hin|Hin].
  - by rewrite keys_dict_set_in.
  - rewrite keys_dict_set_notin by done.
    apply NoDup_app. split; [done|]. split.
    + intros x Hx ->%list_elem_of_singleton. done.
    + apply NoDup_singleton.
Qed.

Section Detections.

Variable self : AudioEventMaintainer.t.

Let l0 : loc := detections self.
Let camera : string := name (config self).

Lemma handle_detection_update label score now resp σ d :
  dict_lookup label (heap σ l0) = Some (Some d) -> d ≠ ∅ ->
  handle_detection self label score now resp σ
  = Ok (tt, write l0
              (dict_set label
                 (Some (<["last_detection"%string := FNum now]> d))
                 (heap σ l0)) σ).
Proof.
  intros Hd Hne. unfold handle_detection, dict_get. fold l0.
  rewrite Hd. simpl. by rewrite bool_decide_eq_false_2.
Qed.

Lemma handle_detection_create label score now resp σ o rest event_id :
  truthy (dict_get label (heap σ l0)) = false ->
  status_code resp = 200%Z -> json resp = o :: rest ->
  o !! "event_id"%string = Some event_id ->
  handle_detection self label score now resp σ
  = Ok (tt, write l0
              (dict_set label (Some (event_record event_id label now))
                 (heap σ l0))
              (emit (Post camera label) σ)).
Proof.
  intros Hfalsy Hstatus Hjson Hid. unfold handle_detection. fold l0.
  rewrite Hfalsy, Hjson, Hid. by rewrite decide_True.
Qed.

Lemma handle_detection_refused label score now resp σ :
  truthy (dict_get label (heap σ l0)) = false ->
  status_code resp ≠ 200%Z ->
  handle_detection self label score now resp σ
  = Ok (tt, emit (Post camera label) σ).
Proof.
  intros Hfalsy Hstatus. unfold handle_detection. fold l0.
  rewrite Hfalsy. by rewrite decide_False.
Qed.

End Detections.

(** C6: when the slot of the label holds no record and the create call
    answers with a status other than 200, [handle_detection] returns with
    the create call recorded and every dict as it was; a further detection
    of the label then issues the create call again. *)
Theorem create_failure_keeps_map self label score now resp σ :
  truthy (dict_get label (heap σ (detections self))) = false ->
  status_code resp ≠ 200%Z ->
  let posted := Post (name (config self)) label in
  handle_detection self label score now resp σ = Ok (tt, emit posted σ) /\
  heap (emit posted σ) = heap σ /\
  forall score' now' resp' σ',
    handle_detection self label score' now' resp' (emit posted σ)
    = Ok (tt, σ') ->
    trace σ' = trace σ ++ [posted; posted].
Proof.
  intros Hfalsy Hstatus posted.
  split; [by apply handle_detection_refused|]. split; [done|].
  intros score' now' resp' σ'. unfold handle_detection. simpl.
  rewrite Hfalsy. fold posted.
  destruct (decide (status_code resp' = 200%Z)).
  - destruct (json resp') as [|o rest]; [done|].
    destruct (o !! "event_id"%string); [|done].
    intros [= <-]. simpl. by rewrite <- app_assoc.
  - intros [= <-]. simpl. by rewrite <- app_assoc.
Qed.

Lemma create_failure_keeps_map_witness :
  let posted := Post "yard" "bark" in
  handle_detection yard_worker "bark" 0.9 0 refused (world_of fresh_store)
  = Ok (tt, emit posted (world_of fresh_store)) /\
  heap (emit posted (world_of fresh_store)) = heap (world_of fresh_store) /\
  forall score' now' resp' σ',
    handle_detection yard_worker "bark" score' now' resp'
      (emit posted (world_of fresh_store)) = Ok (tt, σ') ->
    trace σ' = trace (world_of fresh_store) ++ [posted; posted].
Proof.
  apply (create_failure_keeps_map yard_worker "bark" 0.9 0 refused
           (world_of fresh_store)).
  - vm_compute. reflexivity.
  - vm_compute. discriminate.
Defined.

(** ** Debounce *)

Lemma idle_tracked e : idle e -> tracked e.
Proof. unfold idle, tracked. destruct e.2; [by left | done]. Qed.

Lemma idle_not_stale self now e : idle e -> stale self now e.2 = false.
Proof.
  unfold idle, stale, quiet. destruct e.2 as [d|]; [|done]. by intros ->.
Qed.

Lemma expire_nothing self now (s : store) :
  Forall tracked s ->
  Forall (fun e => stale self now e.2 = false) s ->
  map (expire_entry self now) s = s /\ omap (end_call self now) s = [].
Proof.
  induction 1 as [|e s He _ IH]; intros Hst; [done|].
  apply Forall_cons in Hst as [Hs Hst]. destruct (IH Hst) as [IH1 IH2].
  pose proof (end_call_stale self now e He) as Hc. rewrite Hs in Hc.
  split.
  - rewrite map_cons, IH1. unfold expire_entry. by rewrite Hs.
  - change (omap (end_call self now) (e :: s))
      with (match end_call self now e with
            | Some c => c :: omap (end_call self now) s
            | None => omap (end_call self now) s
            end).
    by rewrite Hc.
Qed.

Section Debounce.

Variable self : AudioEventMaintainer.t.
Variable label : string.
Variable event_id : field.
Variable s : list (string * option (gmap string field)).

Let l0 : loc := detections self.
Let max_not_heard : Q := audio_max_not_heard (config self).

Hypothesis max_not_heard_nonneg : 0 <= max_not_heard.
Hypothesis keys_distinct : NoDup (keys s).
Hypothesis others_idle : Forall idle s.

(** While the event of [label] is open and every step is in the window,
    a run issues no call and only moves the time stamp of the record. *)
Lemma run_open_event steps :
  forall last σ,
    heap σ l0 = dict_set label (Some (event_record event_id label last)) s ->
    in_window max_not_heard last steps ->
    exists σ',
      run self label steps σ = Ok (tt, σ') /\
      trace σ' = trace σ /\
      heap σ' l0
      = dict_set label
          (Some (event_record event_id label (last_heard last steps))) s.
Proof.
  induction steps as [|[score now resp | now] steps IH];
    intros last σ Hheap Hwin.
  - by exists σ.
  - destruct Hwin as [_ Hwin]. simpl. unfold bind.
    rewrite (handle_detection_update self label score now resp σ
               (event_record event_id label last)).
    + match goal with |- context [run _ _ _ ?w] => set (σ1 := w) end.
      destruct (IH now σ1) as (σ' & Hrun & Htrace & Hh); [|done|].
      * subst σ1. simpl. fold l0. rewrite decide_True by done.
        by rewrite Hheap, event_record_touch, dict_set_set.
      * exists σ'. by rewrite Hrun, Htrace, Hh.
    + fold l0. by rewrite Hheap, dict_lookup_set_eq.
    + apply insert_non_empty.
  - destruct Hwin as [Hnow Hwin]. simpl. unfold bind.
    assert (Forall tracked (heap σ l0)) as Htr.
    { rewrite Hheap. apply Forall_dict_set.
      - eapply Forall_impl; [exact others_idle | apply idle_tracked].
      - right. apply record_of_event_record. }
    assert (Forall (fun e => stale self now e.2 = false) (heap σ l0)) as Hst.
    { rewrite Hheap. apply Forall_dict_set.
      - eapply Forall_impl; [exact others_idle | apply idle_not_stale].
      - simpl. apply Qltb_ge. exact Hnow. }
    destruct (expire_detections_spec self now σ)
      as (σ1 & -> & Hh1 & Ht1); [done | | done |].
    { fold l0. rewrite Hheap. by apply NoDup_keys_dict_set. }
    destruct (expire_nothing self now _ Htr Hst) as [Hsame Hnone].
    fold l0 in Hh1, Ht1. rewrite Hsame in Hh1. rewrite Hnone in Ht1.
    rewrite app_nil_r in Ht1.
    destruct (IH last σ1) as (σ' & Hrun & Htrace & Hh);
      [by rewrite Hh1 | done |].
    exists σ'. split; [done|]. split; [by rewrite Htrace | done].
Qed.

End Debounce.

(** C4: from a dict without open events, a first detection of a label
    whose create call succeeds, followed by any number of further
    detections of the label and of expiry passes, each at most
    [max_not_heard] after the latest detection, makes exactly one call, the
    create call of the first detection; afterwards the record of the label
    holds the identifier returned by that call and the time of the latest
    detection. *)
Theorem debounce_single_create self label score now resp o rest event_id
    steps σ :
  let s := heap σ (detections self) in
  let max_not_heard := audio_max_not_heard (config self) in
  0 <= max_not_heard ->
  NoDup (keys s) -> Forall idle s ->
  truthy (dict_get label s) = false ->
  status_code resp = 200%Z -> json resp = o :: rest ->
  o !! "event_id"%string = Some event_id ->
  in_window max_not_heard now steps ->
  exists σ',
    run self label (Detection score now resp :: steps) σ = Ok (tt, σ') /\
    trace σ' = trace σ ++ [Post (name (config self)) label] /\
    heap σ' (detections self)
    = dict_set label
        (Some (event_record event_id label (last_heard now steps))) s.
Proof.
  intros s max_not_heard Hmax Hnd Hidle Hfalsy Hstatus Hjson Hid Hwin.
  simpl. unfold bind.
  rewrite (handle_detection_create self label score now resp σ o rest
             event_id Hfalsy Hstatus Hjson Hid).
  apply (run_open_event self label event_id s Hmax Hnd Hidle steps now);
    [|exact Hwin].
  simpl. by rewrite decide_True.
Qed.

Lemma debounce_single_create_witness :
  exists σ',
    run yard_worker "bark"
      [Detection 0.9 0 (created "e1"); Expiry 0;
       Detection 0.85 10 refused; Expiry 10; Expiry 40] (world_of fresh_store)
    = Ok (tt, σ') /\
    trace σ' = [Post "yard" "bark"] /\
    heap σ' 0%nat
    = [("yard"%string, Some (yard_metrics true));
       ("bark"%string, Some (event_record (FStr "e1") "bark" 10))].
Proof.
  apply (debounce_single_create yard_worker "bark" 0.9 0 (created "e1")
           (<["event_id"%string := FStr "e1"]> ∅) [] (FStr "e1")
           [Expiry 0; Detection 0.85 10 refused; Expiry 10; Expiry 40]
           (world_of fresh_store)).
  - vm_compute. discriminate.
  - apply (bool_decide_unpack _). vm_compute. reflexivity.
  - apply Forall_cons. split; [reflexivity | constructor].
  - vm_compute. reflexivity.
  - reflexivity.
  - reflexivity.
  - reflexivity.
  - vm_compute. repeat split; discriminate.
Defined.

(** ** One record per label *)

Lemma length_dict_set_in k v (s : store) :
  k ∈ keys s -> length (dict_set k v s) = length s.
Proof.
  intros Hin. apply keys_dict_set_in with (v := v) in Hin.
  unfold keys in Hin. apply (f_equal length) in Hin.
  by rewrite !length_fmap in Hin.
Qed.

Lemma elem_of_keys k v (s : store) : (k, v) ∈ s -> k ∈ keys s.
Proof.
  intros H. unfold keys. apply list_elem_of_fmap. by exists (k, v).
Qed.

Lemma store_ok_dict_set k v (s : store) :
  store_ok s -> label_consistent (k, v) -> store_ok (dict_set k v s).
Proof.
  intros [Hnd Hall] Hkv. split.
  - by apply NoDup_keys_dict_set.
  - by apply Forall_dict_set.
Qed.

Section Invariant.

Variable self : AudioEventMaintainer.t.

Let l0 : loc := detections self.

Lemma expire_one_store_ok now k v σ σ' :
  store_ok (heap σ l0) -> (k, v) ∈ heap σ l0 ->
  expire_one self now v σ = Ok (tt, σ') ->
  store_ok (heap σ' l0) /\ length (heap σ' l0) = length (heap σ l0).
Proof.
  intros Hok Hin. unfold expire_one, last_detection_or.
  destruct (negb (truthy v)); [by intros [= <-]|].
  destruct v as [d|]; [|by intros [= <-]].
  destruct (d !! "last_detection"%string) as [[?|t|?]|] eqn:Ht; try done.
  - destruct (Qltb _ _); [|by intros [= <-]].
    destruct (d !! "id"%string) as [event_id|]; [|done].
    destruct (d !! "label"%string) as [[l| |]|] eqn:Hl; try done.
    intros [= <-]. simpl. fold l0. rewrite decide_True by done.
    assert (l = k) as ->.
    { destruct Hok as [_ Hall]. rewrite Forall_forall in Hall.
      specialize (Hall _ Hin). unfold label_consistent in Hall.
      simpl in Hall. rewrite Hl in Hall. by destruct Hall as [|[= ->]]. }
    split; [by apply store_ok_dict_set|].
    apply length_dict_set_in. by eapply elem_of_keys.
  - destruct (Qltb _ _); [|by intros [= <-]].
    by destruct (d !! "id"%string).
Qed.

Lemma expire_loop_store_ok now used n :
  forall i σ σ',
    store_ok (heap σ l0) ->
    expire_loop self now used n i σ = Ok (tt, σ') ->
    store_ok (heap σ' l0).
Proof.
  induction n as [|n IH]; intros i σ σ' Hok; simpl; fold l0.
  - destruct (decide _); [|done]. by intros [= <-].
  - destruct (decide _); [|done].
    destruct (heap σ l0 !! i) as [[k v]|] eqn:Hi; [|by intros [= <-]].
    destruct (expire_one self now v σ) as [[[] σ1]|] eqn:Hone; [|done].
    apply (expire_one_store_ok now k v) in Hone as [Hok1 _]; [|done|].
    + by apply IH.
    + by eapply list_elem_of_lookup_2.
Qed.

Lemma expire_detections_store_ok now σ σ' :
  store_ok (heap σ l0) ->
  expire_detections self now σ = Ok (tt, σ') ->
  store_ok (heap σ' l0).
Proof. unfold expire_detections. apply expire_loop_store_ok. Qed.

Lemma handle_detection_store_ok label score now resp σ σ' :
  store_ok (heap σ l0) ->
  handle_detection self label score now resp σ = Ok (tt, σ') ->
  store_ok (heap σ' l0).
Proof.
  intros Hok. unfold handle_detection. fold l0.
  destruct (truthy _).
  - destruct (dict_lookup label (heap σ l0)) as [[d|]|] eqn:Hd; try done.
    intros [= <-]. simpl. rewrite decide_True by done.
    apply store_ok_dict_set; [done|].
    apply dict_lookup_elem in Hd. destruct Hok as [_ Hall].
    rewrite Forall_forall in Hall. specialize (Hall _ Hd).
    unfold label_consistent in *. simpl in *.
    by rewrite lookup_insert_ne.
  - destruct (decide _); [|by intros [= <-]].
    destruct (json resp) as [|o rest]; [done|].
    destruct (o !! "event_id"%string); [|done].
    intros [= <-]. simpl. rewrite decide_True by done.
    apply store_ok_dict_set; [done|]. by right.
Qed.

Lemma reachable_store_ok σ0 σ :
  store_ok (heap σ0 l0) -> reachable self σ0 σ -> store_ok (heap σ l0).
Proof.
  intros H0. induction 1 as [|σ σ' ? ? ? ? _ IH _ Hstep|σ σ' ? _ IH Hstep].
  - done.
  - by eapply handle_detection_store_ok.
  - by eapply expire_detections_store_ok.
Qed.

End Invariant.

Lemma no_record_without_key l (s : store) :
  Forall label_consistent s -> l ∉ keys s ->
  filter (fun e => has_label l e = true) s = [].
Proof.
  unfold keys. induction 1 as [|[k v] s He _ IH]; simpl; [done|].
  intros [Hne Hin]%not_elem_of_cons. rewrite filter_cons.
  destruct (decide (has_label l (k, v) = true)) as [Hl|]; [|by apply IH].
  exfalso. unfold has_label, label_consistent in *. simpl in *.
  destruct v as [d|]; [|done]. apply bool_decide_eq_true in Hl.
  rewrite Hl in He. by destruct He as [|[= ->]].
Qed.

Lemma at_most_one_record l (s : store) :
  store_ok s -> (length (filter (fun e => has_label l e = true) s) <= 1)%nat.
Proof.
  intros [Hnd Hall]. unfold keys in Hnd.
  induction Hall as [|[k v] s He Hall IH]; simpl; [lia|].
  apply NoDup_cons in Hnd as [Hk Hnd]. rewrite filter_cons.
  destruct (decide (has_label l (k, v) = true)) as [Hl|]; [|by apply IH].
  assert (k = l) as ->.
  { unfold has_label, label_consistent in *. simpl in *.
    destruct v as [d|]; [|done]. apply bool_decide_eq_true in Hl.
    rewrite Hl in He. by destruct He as [|[= ->]]. }
  rewrite no_record_without_key by done. simpl. lia.
Qed.

(** C5: in every state a tracker reaches from a well-formed dict, no two
    entries hold a record of the same label; and when the slot of a label
    holds [None], as the expiry pass leaves it, a detection of the label
    issues a create call and, when the call succeeds, stores a record with
    the identifier of that answer and the time of this detection. *)
Theorem one_record_per_label self σ0 σ :
  store_ok (heap σ0 (detections self)) ->
  reachable self σ0 σ ->
  let s := heap σ (detections self) in
  (forall l,
     (length (filter (fun e => has_label l e = true) s) <= 1)%nat) /\
  (forall l score now resp o rest event_id,
     dict_lookup l s = Some None ->
     status_code resp = 200%Z -> json resp = o :: rest ->
     o !! "event_id"%string = Some event_id ->
     exists σ',
       handle_detection self l score now resp σ = Ok (tt, σ') /\
       trace σ' = trace σ ++ [Post (name (config self)) l] /\
       dict_lookup l (heap σ' (detections self))
       = Some (Some (event_record event_id l now))).
Proof.
  intros H0 Hreach s.
  pose proof (reachable_store_ok self σ0 σ H0 Hreach) as Hok.
  split; [intros l; by apply at_most_one_record|].
  intros l score now resp o rest event_id Hslot Hstatus Hjson Hid.
  eexists. split.
  - apply (handle_detection_create self l score now resp σ o rest event_id);
      [|done..].
    unfold dict_get. fold s. by rewrite Hslot.
  - split; [done|]. simpl. rewrite decide_True by done.
    apply dict_lookup_set_eq.
Qed.

Lemma store_ok_fresh_store : store_ok fresh_store.
Proof.
  split.
  - apply (bool_decide_unpack _). vm_compute. reflexivity.
  - apply Forall_cons. split; [by left | constructor].
Qed.

Lemma one_record_per_label_witness :
  exists σ σ',
    reachable yard_worker (world_of fresh_store) σ /\
    dict_lookup "bark" (heap σ 0%nat) = Some None /\
    handle_detection yard_worker "bark" 0.9 50 (created "e2") σ
    = Ok (tt, σ') /\
    trace σ' = [Post "yard" "bark"; Put (FStr "e1") (0 + 5);
                Post "yard" "bark"] /\
    dict_lookup "bark" (heap σ' 0%nat)
    = Some (Some (event_record (FStr "e2") "bark" 50)).
Proof.
  assert (exists σ,
            reachable yard_worker (world_of fresh_store) σ /\
            dict_lookup "bark" (heap σ 0%nat) = Some None /\
            trace σ = [Post "yard" "bark"; Put (FStr "e1") (0 + 5)])
    as (σ & Hreach & Hslot & Htrace).
  { eexists. split; [|split].
    - eapply reach_expiry with (now := 41).
      + eapply (reach_detection _ _ _ _ "bark"%string 0.9 0 (created "e1")).
        * apply reach_start.
        * apply (bool_decide_unpack _). vm_compute. reflexivity.
        * vm_compute. reflexivity.
      + vm_compute. reflexivity.
    - vm_compute. reflexivity.
    - vm_compute. reflexivity. }
  destruct (one_record_per_label yard_worker (world_of fresh_store) σ
              store_ok_fresh_store Hreach) as [_ Hnew].
  destruct (Hnew "bark"%string 0.9 50 (created "e2")
              (<["event_id"%string := FStr "e2"]> ∅) [] (FStr "e2")
              Hslot eq_refl eq_refl eq_refl)
    as (σ' & Hrun & Htr & Hrec).
  exists σ, σ'. rewrite Htrace in Htr. by repeat split.
Defined.

(** The end-to-end scenario of the specification: detections of "bark" at
    0 and 10, no end call by 40, and at 41 one end call with end time 15. *)
Example bark_scenario :
  observe 0%nat
    (run yard_worker "bark"
       [Detection 0.9 0 (created "e1"); Expiry 0;
        Detection 0.85 10 (created "e2"); Expiry 10; Expiry 40; Expiry 41]
       (world_of fresh_store))
  = Ok ([("yard"%string, Some (yard_metrics true)); ("bark"%string, None)],
        [Post "yard" "bark"; Put (FStr "e1") (10 + 5)]).
Proof. vm_compute. reflexivity. Qed.

(** ** The disabled camera *)

(** C10: when the [audio_enabled] flag of the camera reads false,
    [detect_audio] returns at once and the world is what it was: no run of
    the engine, no create or end call, no change of any dict, so an open
    event is not expired however old it is. *)
Theorem detect_audio_disabled c self env audio σ metrics :
  dict_lookup (name (config self)) (heap σ (feature_metrics self))
  = Some (Some metrics) ->
  metrics !! "audio_enabled"%string = Some (FFlag false) ->
  detect_audio c self env audio σ = Ok (tt, σ).
Proof. intros Hm Hflag. unfold detect_audio. by rewrite Hm, Hflag. Qed.

Lemma detect_audio_disabled_witness :
  detect_audio yard_const yard_worker late_cycle [] (world_of disabled_store)
  = Ok (tt, world_of disabled_store).
Proof.
  apply (detect_audio_disabled yard_const yard_worker late_cycle []
           (world_of disabled_store) (yard_metrics false));
    reflexivity.
Defined.

(** The same cycle with the flag on runs the engine, creates an event for
    "speech" and extends the one of "bark". *)
Example detect_audio_enabled :
  observe 0%nat
    (detect_audio yard_const yard_worker late_cycle []
       (world_of [("yard"%string, Some (yard_metrics true));
                  ("bark"%string, Some (event_record (FStr "e1") "bark" 0))]))
  = Ok ([("yard"%string, Some (yard_metrics true));
         ("bark"%string, Some (event_record (FStr "e1") "bark" 100));
         ("speech"%string, Some (event_record (FStr "e9") "speech" 100))],
        [Invoke []; Post "yard" "speech"]).
Proof. vm_compute. reflexivity. Qed.

(** An expiry pass at that time would have ended the open event. *)
Example expiry_of_disabled_store :
  observe 0%nat (expire_detections yard_worker 100 (world_of disabled_store))
  = Ok ([("yard"%string, Some (yard_metrics false)); ("bark"%string, None)],
        [Put (FStr "e1") (0 + 5)]).
Proof. vm_compute. reflexivity. Qed.

(** ** The detections map is the feature metrics *)

(** C9: the worker built by [__init__] keeps one location for both
    [detections] and [feature_metrics]; a record created by
    [handle_detection] is read back through [feature_metrics] under its
    label; and an expiry pass starts by running the body of its loop on the
    first entry of that dict, the metrics of a camera, so that metrics
    which carry a stale [last_detection] but no [id] make the pass raise
    [KeyError]. *)
Theorem detections_is_feature_metrics c camera fm detector :
  let self := __init__ c camera fm detector in
  detections self = feature_metrics self /\
  (forall σ label score now resp o rest event_id,
     truthy (dict_get label (heap σ (feature_metrics self))) = false ->
     status_code resp = 200%Z -> json resp = o :: rest ->
     o !! "event_id"%string = Some event_id ->
     exists σ',
       handle_detection self label score now resp σ = Ok (tt, σ') /\
       dict_lookup label (heap σ' (feature_metrics self))
       = Some (Some (event_record event_id label now))) /\
  (forall σ now metrics rest,
     heap σ (feature_metrics self) = (name camera, Some metrics) :: rest ->
     expire_detections self now σ
     = (do _ <- expire_one self now (Some metrics);
        expire_loop self now (S (length rest)) (length rest) 1) σ) /\
  (forall σ now metrics rest t,
     heap σ (feature_metrics self) = (name camera, Some metrics) :: rest ->
     metrics !! "last_detection"%string = Some (FNum t) ->
     metrics !! "id"%string = None ->
     audio_max_not_heard camera < now - t ->
     expire_detections self now σ = Raise KeyError).
Proof.
  intros self. split; [reflexivity|]. split; [|split].
  - intros σ label score now resp o rest event_id Hfalsy Hstatus Hjson Hid.
    eexists. split.
    + by apply (handle_detection_create self label score now resp σ o rest
                  event_id).
    + simpl. rewrite decide_True by done. apply dict_lookup_set_eq.
  - intros σ now metrics rest Hheap.
    unfold expire_detections, bind. subst self. simpl in *.
    rewrite Hheap. simpl. rewrite Hheap. simpl.
    rewrite decide_True by done.
    by destruct (expire_one _ now (Some metrics) σ) as [[[] σ1]|].
  - intros σ now metrics rest t Hheap Ht Hid Hstale.
    unfold expire_detections. subst self. simpl in *.
    rewrite Hheap. simpl. rewrite Hheap. simpl.
    rewrite decide_True by done.
    unfold expire_one, last_detection_or. simpl.
    rewrite bool_decide_eq_false_2, Ht, Hid; simpl.
    + apply Qltb_lt in Hstale. by rewrite Hstale.
    + intros ->. by rewrite lookup_empty in Ht.
Qed.

Lemma detections_is_feature_metrics_witness :
  detections speech_worker = feature_metrics speech_worker /\
  expire_detections speech_worker 41
    (world_of
       [("speech"%string,
         Some (<["last_detection"%string := FNum 0]> (yard_metrics true)))])
  = Raise KeyError.
Proof.
  destruct (detections_is_feature_metrics yard_const speech_camera 0%nat
              scenario_tfl) as (Halias & _ & _ & Hraise).
  split; [exact Halias|].
  apply (Hraise _ 41
           (<["last_detection"%string := FNum 0]> (yard_metrics true)) [] 0);
    [reflexivity | reflexivity | reflexivity |].
  vm_compute. reflexivity.
Defined.

(** A camera named like a label it listens for: the detection finds the
    metrics of the camera in the slot of the label, makes no create call
    and stamps the metrics; the expiry pass 41 s later raises. *)
Example speech_camera_detection :
  observe 0%nat
    (handle_detection speech_worker "speech" 0.9 0 (created "e1")
       (world_of speech_store))
  = Ok ([("speech"%string,
          Some (<["last_detection"%string := FNum 0]> (yard_metrics true)))],
        []).
Proof. vm_compute. reflexivity. Qed.

Example speech_camera_expiry :
  run speech_worker "speech" [Detection 0.9 0 (created "e1"); Expiry 41]
    (world_of speech_store)
  = Raise KeyError.
Proof. vm_compute. reflexivity. Qed.

(** ** The size of a read *)

Ltac zq :=
  rewrite ?inject_Z_plus, ?inject_Z_mult in *;
  change (inject_Z 2) with 2 in *; change (inject_Z 1) with 1 in *.

Lemma Qfloor_unique y k :
  inject_Z k <= y -> y < inject_Z (k + 1) -> Qfloor y = k.
Proof.
  intros Hlo Hhi.
  pose proof (Qfloor_le y) as H1. pose proof (Qlt_floor y) as H2.
  apply Z.le_antisymm.
  - apply Z.lt_succ_r. rewrite Zlt_Qlt. unfold Z.succ. lra.
  - apply Z.lt_succ_r. rewrite Zlt_Qlt. unfold Z.succ. lra.
Qed.

Lemma py_round_at y k :
  inject_Z k <= y -> y < inject_Z (k + 1) ->
  py_round y
  = if Qltb (y - inject_Z k) (1 # 2) then k
    else if Qltb (1 # 2) (y - inject_Z k) then (k + 1)%Z
    else if Z.even k then k else (k + 1)%Z.
Proof.
  intros H1 H2. unfold py_round. rewrite (Qfloor_unique y k H1 H2).
  reflexivity.
Qed.

(** Doubling commutes with [round] exactly when the value is within a
    quarter of the integer it rounds to. *)
Lemma py_round_double x :
  py_round (x * 2) = (2 * py_round x)%Z <->
  - (1 # 4) <= x - inject_Z (py_round x) <= 1 # 4.
Proof.
  pose proof (Qfloor_le x) as Hlo. pose proof (Qlt_floor x) as Hhi.
  rewrite (py_round_at x (Qfloor x) Hlo Hhi).
  set (f := Qfloor x) in *. zq.
  destruct (Qltb (x - inject_Z f) (1 # 2)) eqn:E1;
    [|destruct (Qltb (1 # 2) (x - inject_Z f)) eqn:E2].
  - apply Qltb_lt in E1.
    rewrite (py_round_at (x * 2) (2 * f)) by (zq; lra). zq.
    destruct (Qltb (x * 2 - 2 * inject_Z f) (1 # 2)) eqn:E3;
      [|destruct (Qltb (1 # 2) (x * 2 - 2 * inject_Z f)) eqn:E4].
    + apply Qltb_lt in E3. split; [intros _; lra | reflexivity].
    + apply Qltb_lt in E4.
      split; [intros H; exfalso; lia | intros H; exfalso; lra].
    + apply Qltb_ge in E3, E4.
      assert (Z.even (2 * f) = true) as ->
        by (rewrite Z.even_mul; reflexivity).
      split; [intros _; lra | reflexivity].
  - apply Qltb_lt in E2.
    rewrite (py_round_at (x * 2) (2 * f + 1)) by (zq; lra). zq.
    destruct (Qltb (x * 2 - (2 * inject_Z f + 1)) (1 # 2)) eqn:E3;
      [|destruct (Qltb (1 # 2) (x * 2 - (2 * inject_Z f + 1))) eqn:E4].
    + apply Qltb_lt in E3.
      split; [intros H; exfalso; lia | intros H; exfalso; lra].
    + apply Qltb_lt in E4. split; [intros _; lra | intros _; lia].
    + apply Qltb_ge in E3, E4.
      assert (Z.even (2 * f + 1) = false) as ->
        by (rewrite Z.even_add, Z.even_mul; reflexivity).
      split; [intros _; lra | intros _; lia].
  - apply Qltb_ge in E1, E2.
    rewrite (py_round_at (x * 2) (2 * f + 1)) by (zq; lra). zq.
    assert (Qltb (x * 2 - (2 * inject_Z f + 1)) (1 # 2) = true) as ->
      by (apply Qltb_lt; lra).
    destruct (Z.even f); zq;
      (split; [intros H; exfalso; lia | intros H; exfalso; lra]).
Qed.

(** C7, as the code bears it out: [chunk_size] is twice the sample count
    [shape] exactly when [AUDIO_DURATION * AUDIO_SAMPLE_RATE] lies within
    a quarter of the sample count. *)
Theorem chunk_size_twice_shape c camera fm detector :
  let self := __init__ c camera fm detector in
  chunk_size self = (2 * shape self)%Z <->
  - (1 # 4)
    <= AUDIO_DURATION c * AUDIO_SAMPLE_RATE c - inject_Z (shape self)
    <= 1 # 4.
Proof. intros self. apply py_round_double. Qed.

Lemma chunk_size_twice_shape_witness :
  shape yard_worker = 15600%Z /\
  chunk_size yard_worker = (2 * shape yard_worker)%Z.
Proof.
  split; [reflexivity|].
  apply (chunk_size_twice_shape yard_const yard 0%nat scenario_tfl).
  vm_compute. split; discriminate.
Defined.

(** In particular a whole number of samples is read as twice as many
    bytes. *)
Lemma chunk_size_of_integer c camera fm detector n :
  AUDIO_DURATION c * AUDIO_SAMPLE_RATE c == inject_Z n ->
  let self := __init__ c camera fm detector in
  shape self = n /\ chunk_size self = (2 * n)%Z.
Proof.
  intros Hx self.
  assert (shape self = n) as Hn.
  { unfold self. simpl. rewrite (py_round_at _ n) by (zq; lra).
    assert (Qltb (AUDIO_DURATION c * AUDIO_SAMPLE_RATE c - inject_Z n)
              (1 # 2) = true) as -> by (apply Qltb_lt; lra).
    reflexivity. }
  split; [exact Hn|].
  pose proof (py_round_double (AUDIO_DURATION c * AUDIO_SAMPLE_RATE c))
    as [_ H].
  unfold self in *. simpl in *. rewrite H; rewrite Hn; [reflexivity | lra].
Qed.

(** C7 as stated fails: a window of 0.975 s at 11025 Hz has 10749 samples
    but is read as 21499 bytes. *)
Lemma chunk_size_odd_at_11025 :
  let self := __init__ const_11025 yard 0%nat scenario_tfl in
  shape self = 10749%Z /\ chunk_size self = 21499%Z /\
  chunk_size self <> (2 * shape self)%Z.
Proof. vm_compute. repeat split. discriminate. Qed.

(** * Further properties *)

(** ** More on the ranking stage and the threshold cut *)

(** ** More on the ranking stage *)

Lemma take_idx_seq {A} (d : A) (l : list A) :
  Np.take_idx d l (seq 0 (length l)) = l.
Proof.
  unfold Np.take_idx. induction l as [|x l IH]; simpl; [done|].
  f_equal. rewrite <- seq_shift, map_map. exact IH.
Qed.

Lemma take_idx_argsort_perm (ids : list nat) (keys : list Q) :
  length keys = length ids ->
  Np.take_idx O ids (Np.argsort keys) ≡ₚ ids.
Proof.
  intros Hlen. rewrite <- (take_idx_seq O ids) at 2. unfold Np.take_idx.
  apply Permutation_map. rewrite <- Hlen. apply argsort_perm.
Qed.

Lemma top_class_ids_perm res part :
  top_class_ids res part
  ≡ₚ filter (fun i => nth i (map (fun x => Qltb 0 x) res) false = true)
       (take 20 part).
Proof.
  unfold top_class_ids, Np.select. apply filter_Permutation.
  apply take_idx_argsort_perm. unfold Np.take_idx. by rewrite !length_map.
Qed.

Lemma NoDup_take {A} (l : list A) n : NoDup l -> NoDup (take n l).
Proof.
  intros H. rewrite <- (take_drop n l) in H.
  by apply NoDup_app in H as [H _].
Qed.

Lemma top_class_ids_NoDup res part :
  NoDup part -> NoDup (top_class_ids res part).
Proof.
  intros H. rewrite top_class_ids_perm.
  by apply NoDup_filter, NoDup_take.
Qed.

Lemma argsort_NoDup a : NoDup (Np.argsort a).
Proof. rewrite argsort_perm. apply NoDup_seq. Qed.

(** Where the loop of lines 109-119 stops: at the end of the class ids,
    at row 20, or at the first score below 0.4. *)
Lemma fill_cut res ids n i :
  (i <= 20)%nat -> (i + n = length ids)%nat ->
  Forall (fun c => 0.4 <= nth c res 0) (take i ids) ->
  exists k, (k <= 20)%nat /\ (k <= length ids)%nat /\
    Forall (fun c => 0.4 <= nth c res 0) (take k ids) /\
    fill ids (Np.take_idx 0 res ids) n i (padded (rows_of res (take i ids)))
    = padded (rows_of res (take k ids)) /\
    (k = length ids \/ k = 20%nat \/
     exists c, ids !! k = Some c /\ nth c res 0 < 0.4).
Proof.
  revert i. induction n as [|n IH]; intros i Hi Hn Hok; simpl.
  - exists i. repeat split; [done | lia | done | left; lia].
  - destruct (lookup_lt_is_Some_2 ids i) as [c Hc]; [lia|].
    assert (nth i (Np.take_idx 0 res ids) 0 = nth c res 0) as ->.
    { apply nth_lookup_Some. unfold Np.take_idx.
      change (map ?f ?l) with (f <$> l). by rewrite list_lookup_fmap, Hc. }
    rewrite (nth_lookup_Some _ _ _ _ Hc).
    destruct (Qltb (nth c res 0) 0.4) eqn:Hlow; simpl.
    { exists i. repeat split; [done | lia | done |].
      right. right. exists c. split; [done|]. by apply Qltb_lt. }
    destruct (Nat.eqb_spec i 20) as [->|Hne].
    { exists 20%nat. repeat split; [done | lia | done | by right; left]. }
    rewrite fill_step by (done || lia).
    apply IH; [lia | lia |].
    rewrite (take_S_r _ _ _ Hc). apply Forall_app. split; [done|].
    constructor; [|done]. by apply Qltb_ge.
Qed.

Lemma StronglySorted_lookup {A} (R : relation A) l i j x y :
  StronglySorted R l -> (i < j)%nat ->
  l !! i = Some x -> l !! j = Some y -> R x y.
Proof.
  intros Hs Hij Hi Hj.
  rewrite <- (take_drop j l) in Hs.
  eapply (StronglySorted_app_1_elem_of R _ _ x y Hs).
  - apply list_elem_of_lookup. exists i. rewrite lookup_take_lt; done.
  - apply list_elem_of_lookup. exists 0%nat. by rewrite lookup_drop, Nat.add_0_r.
Qed.

Lemma filter_all {A} (P : A -> Prop) `{!forall x, Decision (P x)} l :
  Forall P l -> filter P l = l.
Proof.
  induction 1 as [|x l Hx _ IH]; [done|].
  by rewrite filter_cons_True, IH.
Qed.

Lemma nth_neg res x : nth x (map Qopp res) 0 = - nth x res 0.
Proof. exact (map_nth Qopp res 0 x). Qed.

Lemma nth_mask res x :
  nth x (map (fun y => Qltb 0 y) res) false = Qltb 0 (nth x res 0).
Proof. exact (map_nth (fun y => Qltb 0 y) res 0 x). Qed.

(** The class ids of the filled rows, for the partition of the model. *)
Lemma rank_ids res :
  (20 < length res)%nat ->
  exists ids,
    rank res = Ok (padded (rows_of res ids)) /\
    (length ids <= 20)%nat /\
    NoDup ids /\
    Forall (fun c => 0.4 <= nth c res 0 /\ (c < length res)%nat) ids /\
    StronglySorted (score_ge res) ids /\
    (forall c, (c < length res)%nat -> 0.4 <= nth c res 0 ->
       c ∈ ids \/
       (length ids = 20%nat /\
        Forall (fun i => nth c res 0 <= nth i res 0) ids)).
Proof.
  intros Hlen. unfold rank, Np.argpartition. rewrite length_map.
  rewrite decide_True by done.
  set (part := Np.argsort (map Qopp res)).
  unfold rank_from.
  set (ids := top_class_ids res part).
  replace (length (Np.take_idx 0 res ids)) with (length ids)
    by (unfold Np.take_idx; by rewrite length_map).
  destruct (fill_cut res ids (length ids) 0)
    as (k & Hk & Hkl & Hok & Heq & Hstop); [lia | done | by rewrite take_0 |].
  pose proof (top_class_ids_sorted res part) as Hsorted. fold ids in Hsorted.
  pose proof (top_class_ids_perm res part) as Hperm. fold ids in Hperm.
  set (mask := fun i => nth i (map (fun x => Qltb 0 x) res) false = true)
    in Hperm.
  assert (length ids <= 20)%nat as Hids20.
  { rewrite Hperm. etrans; [apply length_filter|]. rewrite length_take. lia. }
  assert (forall c, c ∈ ids -> 0.4 <= nth c res 0 -> c ∈ take k ids) as Hin.
  { intros c Hc Hge. apply list_elem_of_lookup in Hc as [j Hj].
    destruct (decide (j < k)%nat) as [Hjk|Hjk].
    { apply list_elem_of_lookup. exists j. by rewrite lookup_take_lt. }
    destruct Hstop as [->|[->|(c' & Hc' & Hlow)]].
    - apply lookup_lt_Some in Hj. lia.
    - apply lookup_lt_Some in Hj. lia.
    - destruct (decide (j = k)) as [->|Hne].
      + rewrite Hj in Hc'. injection Hc' as ->. lra.
      + pose proof (StronglySorted_lookup _ _ k j c' c Hsorted) as Hle.
        unfold score_ge in Hle. specialize (Hle ltac:(lia) Hc' Hj). lra. }
  exists (take k ids). split; [by rewrite <- Heq|].
  split; [rewrite length_take; lia|].
  split; [apply NoDup_take, top_class_ids_NoDup, argsort_NoDup|].
  split.
  { pose proof (top_class_ids_positive res part) as Hpos. fold ids in Hpos.
    apply (Forall_take _ k) in Hpos.
    rewrite Forall_forall in Hok, Hpos. apply Forall_forall.
    intros c' Hc'. split; [by apply Hok | by apply Hpos]. }
  split; [by apply StronglySorted_take|].
  intros c Hc Hge.
  assert (c ∈ part) as Hcp.
  { unfold part. rewrite argsort_perm, length_map. apply elem_of_seq. lia. }
  rewrite <- (take_drop 20 part) in Hcp.
  apply elem_of_app in Hcp as [Hct|Hcd].
  - left. apply Hin; [|done]. rewrite Hperm.
    apply list_elem_of_filter. split; [|done].
    unfold mask. rewrite nth_mask. apply Qltb_lt. lra.
  - right.
    assert (Forall (fun i => nth c res 0 <= nth i res 0) (take 20 part))
      as Htop.
    { apply Forall_forall. intros x Hx.
      pose proof (argsort_sorted (map Qopp res)) as Hs. fold part in Hs.
      rewrite <- (take_drop 20 part) in Hs.
      pose proof (StronglySorted_app_1_elem_of _ _ _ x c Hs Hx Hcd) as Hle.
      simpl in Hle. rewrite !nth_neg in Hle. lra. }
    assert (filter mask (take 20 part) = take 20 part) as Hall.
    { apply filter_all. eapply Forall_impl; [exact Htop|].
      intros x Hx. simpl in Hx. unfold mask. rewrite nth_mask.
      apply Qltb_lt. lra. }
    rewrite Hall in Hperm.
    assert (length ids = 20%nat) as Hl20.
    { rewrite Hperm, length_take.
      assert (length part = length res) as ->
        by (unfold part; by rewrite argsort_perm, length_seq, length_map).
      lia. }
    assert (Forall (fun i => nth c res 0 <= nth i res 0) ids) as Hids.
    { by rewrite Hperm. }
    assert (take k ids = ids) as ->.
    { apply take_ge. destruct Hstop as [->|[->|(c' & Hc' & Hlow)]]; [lia..|].
      apply list_elem_of_lookup_2 in Hc'.
      rewrite Forall_forall in Hids. specialize (Hids c' Hc'). lra. }
    done.
Qed.

Lemma rank_ok_length res out : rank res = Ok out -> (20 < length res)%nat.
Proof.
  unfold rank, Np.argpartition. rewrite length_map.
  by destruct (decide (20 < length res)%nat).
Qed.

Lemma filled_row_not_zero c s : filled_row c s <> zero_row.
Proof. unfold filled_row, zero_row. intros [= _ _ H]. Qed.

Lemma filter_none {A} (P : A -> Prop) `{!forall x, Decision (P x)} l :
  Forall (fun x => ~ P x) l -> filter P l = [].
Proof.
  induction 1 as [|x l Hx _ IH]; [done|].
  by rewrite filter_cons_False, IH.
Qed.

Lemma filled_rows_of_padded res ids :
  filter (fun r => r <> zero_row) (padded (rows_of res ids)) = rows_of res ids.
Proof.
  unfold padded. rewrite filter_app, filter_all, filter_none.
  - apply app_nil_r.
  - apply Forall_forall. intros r [-> _]%elem_of_replicate. by intros H.
  - unfold rows_of. apply Forall_fmap, Forall_forall.
    intros c _. apply filled_row_not_zero.
Qed.



(** X2: no class is reported twice: the class indices of the rows that
    are not padding are pairwise distinct. *)
Theorem detect_raw_distinct_classes self tensor_input σ :
  (20 < length (interpreter self tensor_input))%nat ->
  exists out,
    _detect_raw self tensor_input σ = Ok (out, emit (Invoke tensor_input) σ) /\
    NoDup (d0 <$> filter (fun r => r <> zero_row) out).
Proof.
  intros Hlen.
  destruct (rank_ids _ Hlen) as (ids & Hrank & _ & Hnd & _).
  exists (padded (rows_of (interpreter self tensor_input) ids)). split.
  - unfold _detect_raw. by rewrite Hrank.
  - rewrite filled_rows_of_padded. unfold rows_of.
    change (map ?f ?l) with (f <$> l). rewrite <- list_fmap_compose.
    apply NoDup_fmap_2_strong; [|done].
    intros c c' _ _ H. simpl in H. injection H as H. lia.
Qed.

Lemma detect_raw_distinct_classes_witness :
  exists out,
    _detect_raw scenario_tfl [] idle_world
    = Ok (out, emit (Invoke []) idle_world) /\
    NoDup (d0 <$> filter (fun r => r <> zero_row) out).
Proof.
  apply (detect_raw_distinct_classes scenario_tfl [] idle_world).
  vm_compute. lia.
Defined.

(** X3: nothing live is lost: a class whose score is at least 0.4 has
    its row in the array, unless all 20 rows are filled with scores at
    least as high. *)
Theorem detect_raw_complete self tensor_input σ c :
  let res := interpreter self tensor_input in
  (20 < length res)%nat -> (c < length res)%nat -> 0.4 <= nth c res 0 ->
  exists out,
    _detect_raw self tensor_input σ = Ok (out, emit (Invoke tensor_input) σ) /\
    (filled_row c (nth c res 0) ∈ out \/
     Forall (fun r => r <> zero_row /\ nth c res 0 <= d1 r) out).
Proof.
  intros res Hlen Hc Hge.
  destruct (rank_ids _ Hlen) as (ids & Hrank & _ & _ & _ & _ & Hall).
  exists (padded (rows_of res ids)). split.
  - unfold _detect_raw. fold res. by rewrite Hrank.
  - destruct (Hall c Hc Hge) as [Hin | [Hfull Hhigh]].
    + left. unfold padded. apply elem_of_app. left.
      unfold rows_of. apply list_elem_of_fmap. by exists c.
    + right. unfold padded. rewrite length_rows_of, Hfull. simpl.
      rewrite app_nil_r. unfold rows_of. apply Forall_fmap.
      eapply Forall_impl; [exact Hhigh|].
      intros i Hi. simpl. split; [apply filled_row_not_zero | exact Hi].
Qed.

Lemma detect_raw_complete_witness :
  exists out,
    _detect_raw scenario_tfl [] idle_world
    = Ok (out, emit (Invoke []) idle_world) /\
    (filled_row 1 (nth 1 scenario_scores 0) ∈ out \/
     Forall (fun r => r <> zero_row /\ nth 1 scenario_scores 0 <= d1 r) out).
Proof.
  apply (detect_raw_complete scenario_tfl [] idle_world 1).
  - vm_compute. lia.
  - vm_compute. lia.
  - vm_compute. discriminate.
Defined.

(** ** More on [detect] *)

Lemma as_detection_inv self d det :
  as_detection self d = Ok det ->
  exists l, label_of self (d0 d) = Ok l /\
            det = (l, d1 d, (d2 d, d3 d, d4 d, d5 d)).
Proof.
  unfold as_detection. destruct (label_of self (d0 d)) as [l|]; [|done].
  intros [= <-]. by exists l.
Qed.

Lemma label_of_class self c l :
  label_of self (inject_Z (Z.of_nat c)) = Ok l -> labels self !! c = Some l.
Proof.
  unfold label_of, py_int. simpl. rewrite Z.quot_1_r, Nat2Z.id.
  destruct (decide _); [|done].
  by destruct (labels self !! c) as [l'|]; [intros [= ->]|].
Qed.

Lemma detections_sorted self pre (out : list detection) :
  StronglySorted by_score_desc pre ->
  Forall2 (fun d det => as_detection self d = Ok det) pre out ->
  StronglySorted (fun a b => det_score b <= det_score a) out.
Proof.
  intros Hs H. induction H as [|d det pre out Hd H IH]; [constructor|].
  apply StronglySorted_inv in Hs as [Hs Hall].
  constructor; [by apply IH|].
  apply as_detection_inv in Hd as (l & _ & ->).
  clear IH Hs. induction H as [|d' det' pre out Hd' H IH]; [constructor|].
  apply Forall_cons in Hall as [Hle Hall].
  constructor; [|by apply IH].
  apply as_detection_inv in Hd' as (l' & _ & ->). exact Hle.
Qed.

(** X4: what [detect] returns, when it is not stopped, holds at most 20
    detections, each with a score of at least the threshold, in
    non-increasing order of score.  With a positive threshold every one
    of them is a class of the score vector with its score, which is at
    least 0.4, the label of that class and the box [(-1, -1, -1, -1)]. *)
Theorem detect_bounds self tensor_input threshold σ out σ' :
  stop_is_set σ = false ->
  detect self tensor_input threshold σ = Ok (out, σ') ->
  let res := interpreter self tensor_input in
  (length out <= 20)%nat /\
  Forall (fun det => threshold <= det_score det) out /\
  StronglySorted (fun a b => det_score b <= det_score a) out /\
  (0 < threshold ->
   Forall (fun det =>
             exists c, (c < length res)%nat /\
               labels self !! c = Some det.1.1 /\
               det_score det = nth c res 0 /\ 0.4 <= nth c res 0 /\
               det.2 = (-1, -1, -1, -1)) out).
Proof.
  intros Hrun. unfold detect, _detect_raw. rewrite Hrun.
  destruct (rank (interpreter self tensor_input)) as [raw|] eqn:Hrank;
    [|done].
  destruct (detect_loop self threshold raw []) as [dets|] eqn:Hloop; [|done].
  intros [= <- <-]. set (res := interpreter self tensor_input) in *.
  pose proof (rank_ok_length _ _ Hrank) as Hlen.
  destruct (rank_ids res Hlen) as (ids & Hrank' & Hids & _ & Hok & Hsorted & _).
  rewrite Hrank in Hrank'. injection Hrank' as ->.
  apply detect_loop_spec in Hloop
    as (pre & post & dets' & Hraw & -> & Hpre & _ & Hdets). simpl.
  assert (length (padded (rows_of res ids)) = 20%nat) as Hl20.
  { unfold padded. rewrite length_app, length_replicate, length_rows_of. lia. }
  split.
  { rewrite <- (Forall2_length _ _ _ Hdets).
    rewrite Hraw, length_app in Hl20. lia. }
  split.
  { clear -Hpre Hdets. induction Hdets as [|d det pre out Hd H IH];
      [constructor|].
    apply Forall_cons in Hpre as [Hle Hpre].
    constructor; [|by apply IH].
    apply as_detection_inv in Hd as (l & _ & ->). exact Hle. }
  split.
  { apply (detections_sorted self pre); [|done].
    pose proof (padded_rows_sorted res ids) as Hs.
    rewrite Hraw in Hs. eapply StronglySorted_app_1_l, Hs; [|done].
    eapply Forall_impl; [exact Hok|]. by intros c [H _]. }
  intros Hpos.
  assert (Forall (fun d => exists c, (c < length res)%nat /\
                     0.4 <= nth c res 0 /\ d = filled_row c (nth c res 0))
            pre) as Hfilled.
  { apply Forall_forall. intros d Hd.
    assert (d ∈ padded (rows_of res ids)) as Hin
      by (rewrite Hraw; apply elem_of_app; by left).
    rewrite Forall_forall in Hpre. specialize (Hpre d Hd).
    unfold padded in Hin. apply elem_of_app in Hin as [Hin|Hin].
    - unfold rows_of in Hin. apply list_elem_of_fmap in Hin as (c & -> & Hc).
      rewrite Forall_forall in Hok. destruct (Hok c Hc) as [H1 H2].
      by exists c.
    - apply elem_of_replicate in Hin as [-> _]. simpl in Hpre. lra. }
  clear -Hfilled Hdets.
  induction Hdets as [|d det pre out Hd H IH]; [constructor|].
  apply Forall_cons in Hfilled as [(c & Hc & Hge & ->) Hfilled].
  constructor; [|by apply IH].
  apply as_detection_inv in Hd as (l & Hl & ->). simpl in *.
  apply label_of_class in Hl. by exists c.
Qed.

Lemma detect_bounds_witness :
  exists out σ',
    detect scenario_tfl [] 0.8 idle_world = Ok (out, σ') /\
    (length out <= 20)%nat /\
    Forall (fun det => 0.8 <= det_score det) out /\
    StronglySorted (fun a b => det_score b <= det_score a) out.
Proof.
  eexists _, _. split; [vm_compute; reflexivity|].
  destruct (detect_bounds scenario_tfl [] 0.8 idle_world _ _ eq_refl
              detect_scenario) as (H1 & H2 & H3 & _).
  by repeat split.
Defined.

Lemma detect_loop_all self thr raw dets acc :
  Forall (fun d => thr <= d1 d) raw ->
  Forall2 (fun d det => as_detection self d = Ok det) raw dets ->
  detect_loop self thr raw acc = Ok (acc ++ dets).
Proof.
  intros Hall H. revert acc.
  induction H as [|d det raw dets Hd H IH]; intros acc; simpl.
  - by rewrite app_nil_r.
  - apply Forall_cons in Hall as [Hle Hall].
    apply Qltb_ge in Hle. rewrite Hle, Hd, IH by done.
    by rewrite <- app_assoc.
Qed.

Lemma as_detection_zero_row self l0 :
  labels self !! 0%nat = Some l0 ->
  as_detection self zero_row = Ok (padding_detection l0).
Proof.
  intros Hl. unfold as_detection, label_of, py_int. simpl.
  change (Z.to_nat (0 ÷ 1)) with O. by rewrite Hl.
Qed.

(** X5: with a threshold of zero or less the rows of zeros pass the
    cut: [detect] returns 20 detections, the live classes followed by
    copies of the first label of the vocabulary with score 0. *)
Theorem detect_nonpositive_threshold self tensor_input threshold σ l0 :
  stop_is_set σ = false ->
  threshold <= 0 ->
  (20 < length (interpreter self tensor_input))%nat ->
  (length (interpreter self tensor_input) <= length (labels self))%nat ->
  labels self !! 0%nat = Some l0 ->
  exists live,
    detect self tensor_input threshold σ
    = Ok (live ++ replicate (20 - length live) (padding_detection l0),
          emit (Invoke tensor_input) σ) /\
    (length live <= 20)%nat /\
    Forall (fun det => 0.4 <= det_score det) live.
Proof.
  intros Hrun Hthr Hlen Hlab Hl0.
  set (res := interpreter self tensor_input) in *.
  destruct (rank_ids res Hlen) as (ids & Hrank & Hids & _ & Hok & _).
  assert (exists live,
            Forall2 (fun d det => as_detection self d = Ok det)
              (rows_of res ids) live /\
            Forall (fun det => 0.4 <= det_score det) live)
    as (live & Hlive & Hscores).
  { clear Hrank Hids. induction Hok as [|c ids [Hge Hc] _ IH].
    - exists []. split; constructor.
    - destruct IH as (live & Hlive & Hscores).
      destruct (as_detection_filled self c (nth c res 0)) as [det Hdet];
        [lia|].
      exists (det :: live). split; [by constructor|].
      constructor; [|done].
      apply as_detection_inv in Hdet as (l & _ & ->). exact Hge. }
  exists live.
  pose proof (Forall2_length _ _ _ Hlive) as Hll.
  rewrite length_rows_of in Hll.
  split; [|split; [lia | done]].
  unfold detect, _detect_raw. rewrite Hrun. fold res. rewrite Hrank.
  rewrite (detect_loop_all self threshold _
             (live ++ replicate (20 - length live) (padding_detection l0)));
    [done | |].
  - unfold padded. apply Forall_app. split.
    + unfold rows_of. apply Forall_fmap. eapply Forall_impl; [exact Hok|].
      intros c [Hge _]. simpl. lra.
    + apply Forall_forall. intros r [-> _]%elem_of_replicate. simpl. lra.
  - unfold padded. apply Forall2_app; [done|].
    rewrite length_rows_of, Hll.
    apply Forall2_replicate.
    by apply as_detection_zero_row.
Qed.

Lemma detect_nonpositive_threshold_witness :
  exists live,
    detect scenario_tfl [] 0 idle_world
    = Ok (live ++ replicate (20 - length live) (padding_detection "speech"),
          emit (Invoke []) idle_world) /\
    (length live <= 20)%nat /\
    Forall (fun det => 0.4 <= det_score det) live.
Proof.
  apply (detect_nonpositive_threshold scenario_tfl [] 0 idle_world "speech").
  - reflexivity.
  - vm_compute. discriminate.
  - vm_compute. lia.
  - vm_compute. lia.
  - reflexivity.
Defined.

Lemma detect_loop_monotone self thr1 thr2 raw acc out1 :
  thr1 <= thr2 ->
  detect_loop self thr1 raw acc = Ok out1 ->
  exists out2,
    detect_loop self thr2 raw acc = Ok out2 /\ out2 `prefix_of` out1.
Proof.
  intros Hle. revert acc. induction raw as [|d raw IH]; intros acc; simpl.
  - intros [= <-]. by exists acc.
  - destruct (Qltb (d1 d) thr2) eqn:H2.
    + intros H1. exists acc. split; [done|].
      change (detect_loop self thr1 (d :: raw) acc = Ok out1) in H1.
      apply detect_loop_spec in H1 as (_ & _ & dets & _ & -> & _).
      by apply prefix_app_r.
    + apply Qltb_ge in H2.
      assert (Qltb (d1 d) thr1 = false) as -> by (apply Qltb_ge; lra).
      destruct (as_detection self d) as [det|]; [|done]. apply IH.
Qed.

(** X6: raising the threshold only shortens the result: when [detect]
    returns for a threshold, it returns for every higher one, and what it
    returns is a prefix of the first result. *)
Theorem detect_threshold_monotone self tensor_input thr1 thr2 σ out1 σ' :
  thr1 <= thr2 ->
  detect self tensor_input thr1 σ = Ok (out1, σ') ->
  exists out2,
    detect self tensor_input thr2 σ = Ok (out2, σ') /\
    out2 `prefix_of` out1.
Proof.
  intros Hle. unfold detect.
  destruct (stop_is_set σ).
  { intros [= <- <-]. by exists []. }
  destruct (_detect_raw self tensor_input σ) as [[raw σ1]|]; [|done].
  destruct (detect_loop self thr1 raw []) as [dets|] eqn:Hloop; [|done].
  intros [= <- <-].
  destruct (detect_loop_monotone self thr1 thr2 raw [] dets Hle Hloop)
    as (out2 & -> & Hpre).
  by exists out2.
Qed.

Lemma detect_threshold_monotone_witness :
  exists out2,
    detect scenario_tfl [] 0.9 idle_world
    = Ok (out2, emit (Invoke []) idle_world) /\
    out2 `prefix_of`
      [("speech"%string, 0.95, (-1, -1, -1, -1));
       ("bark"%string, 0.82, (-1, -1, -1, -1));
       ("yell"%string, 0.81, (-1, -1, -1, -1))].
Proof.
  apply (detect_threshold_monotone scenario_tfl [] 0.8 0.9 idle_world).
  - vm_compute. discriminate.
  - exact detect_scenario.
Defined.

(** ** More on [handle_detection] *)

Lemma dict_lookup_set_ne k k' v (s : store) :
  k ≠ k' -> dict_lookup k' (dict_set k v s) = dict_lookup k' s.
Proof.
  intros Hne. induction s as [|[k'' v''] s IH]; simpl.
  - by destruct (decide (k = k')).
  - destruct (decide (k'' = k)) as [->|]; simpl.
    + by destruct (decide (k = k')).
    + destruct (decide (k'' = k')); [done|exact IH].
Qed.

Lemma keys_dict_set k v (s : store) :
  keys (dict_set k v s) = keys s \/
  ((k ∉ keys s) /\ keys (dict_set k v s) = keys s ++ [k]).
Proof.
  destruct (decide (k ∈ keys s)) as [Hin|Hin].
  - left. by apply keys_dict_set_in.
  - right. split; [done|]. by apply keys_dict_set_notin.
Qed.

(** X7: a detection touches one slot only.  When [handle_detection]
    returns, every other key of the dict holds what it held, every other
    dict and the stop event are as before, and the trace has grown by
    nothing or by the one create call for this camera and label. *)
Theorem handle_detection_frame self label score now resp σ σ' :
  handle_detection self label score now resp σ = Ok (tt, σ') ->
  (forall k, k ≠ label ->
     dict_lookup k (heap σ' (detections self))
     = dict_lookup k (heap σ (detections self))) /\
  (forall l, l ≠ detections self -> heap σ' l = heap σ l) /\
  (trace σ' = trace σ \/
   trace σ' = trace σ ++ [Post (name (config self)) label]) /\
  stop_is_set σ' = stop_is_set σ.
Proof.
  unfold handle_detection.
  destruct (truthy _).
  - destruct (dict_lookup label _) as [[d|]|]; try done.
    intros [= <-]. simpl. rewrite decide_True by done.
    split; [intros k Hk; by apply dict_lookup_set_ne|].
    split; [intros l Hl; by rewrite decide_False|]. by split; [left|].
  - destruct (decide _).
    + destruct (json resp) as [|o rest]; [done|].
      destruct (o !! "event_id"%string); [|done].
      intros [= <-]. simpl. rewrite decide_True by done.
      split; [intros k Hk; by apply dict_lookup_set_ne|].
      split; [intros l Hl; by rewrite decide_False|]. by split; [right|].
    + intros [= <-]. simpl. by split; [|split; [|split; [right|]]].
Qed.

Lemma handle_detection_frame_witness :
  exists σ',
    handle_detection yard_worker "speech" 0.9 30 (created "e3")
      (world_of busy_store) = Ok (tt, σ') /\
    dict_lookup "bark" (heap σ' 0%nat)
    = dict_lookup "bark" (heap (world_of busy_store) 0%nat) /\
    stop_is_set σ' = false.
Proof.
  eexists. split; [reflexivity|].
  match goal with
  | |- dict_lookup _ (heap ?w _) = _ /\ _ =>
      destruct (handle_detection_frame yard_worker "speech" 0.9 30
                  (created "e3") (world_of busy_store) w)
        as (Hother & _ & _ & Hstop)
  end.
  - reflexivity.
  - split; [apply (Hother "bark"%string); discriminate | exact Hstop].
Defined.

(** X8: a detection keeps the order of the dict: the keys are the same
    after it, or the label, new to the dict, has been added at the end. *)
Theorem handle_detection_keys self label score now resp σ σ' :
  handle_detection self label score now resp σ = Ok (tt, σ') ->
  let before := keys (heap σ (detections self)) in
  let after := keys (heap σ' (detections self)) in
  after = before \/ ((label ∉ before) /\ after = before ++ [label]).
Proof.
  unfold handle_detection.
  destruct (truthy _).
  - destruct (dict_lookup label _) as [[d|]|]; try done.
    intros [= <-]. simpl. rewrite decide_True by done. apply keys_dict_set.
  - destruct (decide _).
    + destruct (json resp) as [|o rest]; [done|].
      destruct (o !! "event_id"%string); [|done].
      intros [= <-]. simpl. rewrite decide_True by done. apply keys_dict_set.
    + intros [= <-]. simpl. by left.
Qed.

Lemma handle_detection_keys_witness :
  exists σ',
    handle_detection yard_worker "bark" 0.9 0 (created "e1")
      (world_of fresh_store) = Ok (tt, σ') /\
    keys (heap σ' 0%nat) = ["yard"%string; "bark"%string].
Proof.
  eexists. split; [reflexivity|].
  match goal with
  | |- keys (heap ?w _) = _ =>
      destruct (handle_detection_keys yard_worker "bark" 0.9 0
                  (created "e1") (world_of fresh_store) w) as [H | [_ H]]
  end.
  - reflexivity.
  - vm_compute in H. discriminate H.
  - exact H.
Defined.

(** X9: a create call answered 200 without an event identifier makes
    [handle_detection] raise: [IndexError] on an empty array, [KeyError]
    on a first object without [event_id]. *)
Theorem handle_detection_malformed_answer self label score now resp σ :
  truthy (dict_get label (heap σ (detections self))) = false ->
  status_code resp = 200%Z ->
  (json resp = [] ->
   handle_detection self label score now resp σ = Raise IndexError) /\
  (forall o rest,
     json resp = o :: rest -> o !! "event_id"%string = None ->
     handle_detection self label score now resp σ = Raise KeyError).
Proof.
  intros Hfalsy Hstatus. unfold handle_detection.
  rewrite Hfalsy, decide_True by done. split.
  - by intros ->.
  - intros o rest -> Hid. simpl. by rewrite Hid.
Qed.

Lemma handle_detection_malformed_answer_witness :
  handle_detection yard_worker "bark" 0.9 0 (Response 200 [])
    (world_of fresh_store) = Raise IndexError.
Proof.
  destruct (handle_detection_malformed_answer yard_worker "bark" 0.9 0
              (Response 200 []) (world_of fresh_store)) as [H _].
  - reflexivity.
  - reflexivity.
  - apply H. reflexivity.
Defined.

(** ** More on the expiry pass *)

Lemma kept_or_cleared_refl (s : store) : Forall2 kept_or_cleared s s.
Proof. induction s; constructor; [by split; [|left] | done]. Qed.

Lemma kept_or_cleared_trans (s1 s2 s3 : store) :
  Forall2 kept_or_cleared s1 s2 -> Forall2 kept_or_cleared s2 s3 ->
  Forall2 kept_or_cleared s1 s3.
Proof.
  intros H12. revert s3. induction H12 as [|e1 e2 s1 s2 [Hk Hv] _ IH];
    intros s3 H23.
  - by apply Forall2_nil_inv_l in H23 as ->.
  - apply Forall2_cons_inv_l in H23 as (e3 & s3' & [Hk' Hv'] & H23 & ->).
    constructor; [|by apply IH]. split; [congruence|].
    destruct Hv' as [-> | ->]; [done | by right].
Qed.

Lemma kept_or_cleared_dict_set k (s : store) :
  Forall2 kept_or_cleared s (dict_set k None s) \/ k ∉ keys s.
Proof.
  destruct (decide (k ∈ keys s)) as [Hin|Hin]; [left | by right].
  unfold keys in Hin. induction s as [|[k' v'] s IH]; simpl.
  - by apply elem_of_nil in Hin.
  - destruct (decide (k' = k)) as [->|Hne].
    + constructor; [by split; [|right] | apply kept_or_cleared_refl].
    + constructor; [by split; [|left]|]. apply IH.
      simpl in Hin. apply elem_of_cons in Hin as [?|?]; [congruence|done].
Qed.

Lemma kept_or_cleared_keys (s s' : store) :
  Forall2 kept_or_cleared s s' -> keys s' = keys s.
Proof.
  unfold keys. induction 1 as [|e e' s s' [Hk _] _ IH]; [done|].
  rewrite !fmap_cons, Hk. f_equal. exact IH.
Qed.

Section Pass.

Variable self : AudioEventMaintainer.t.
Variable now : Q.

Lemma expire_one_effects v σ σ' :
  expire_one self now v σ = Ok (tt, σ') ->
  (trace σ' = trace σ \/ exists c, is_put c /\ trace σ' = trace σ ++ [c]) /\
  (forall l, l ≠ detections self -> heap σ' l = heap σ l) /\
  stop_is_set σ' = stop_is_set σ /\
  (heap σ' (detections self) = heap σ (detections self) \/
   exists k, heap σ' (detections self)
             = dict_set k None (heap σ (detections self))).
Proof.
  unfold expire_one, last_detection_or.
  destruct (negb (truthy v)); [intros [= <-]; by repeat split; left|].
  destruct v as [d|]; [|intros [= <-]; by repeat split; left].
  destruct (d !! "last_detection"%string) as [[?|t|?]|] eqn:Ht; try done.
  - destruct (Qltb _ _); [|intros [= <-]; by repeat split; left].
    destruct (d !! "id"%string) as [event_id|]; [|done].
    destruct (d !! "label"%string) as [[l| |]|] eqn:Hl; try done.
    intros [= <-]. simpl. rewrite decide_True by done.
    split; [right; eexists; split; [|reflexivity]; exact I|].
    split; [intros l' Hl'; by rewrite decide_False|].
    split; [done|]. right. by exists l.
  - destruct (Qltb _ _); [|intros [= <-]; by repeat split; left].
    by destruct (d !! "id"%string).
Qed.

Lemma expire_loop_ok_length used n i σ σ' :
  expire_loop self now used n i σ = Ok (tt, σ') ->
  length (heap σ (detections self)) = used.
Proof. destruct n; simpl; by destruct (decide _). Qed.

Lemma length_dict_set_new k v (s : store) :
  k ∉ keys s -> length (dict_set k v s) = S (length s).
Proof.
  intros Hin. apply keys_dict_set_notin with (v := v) in Hin.
  unfold keys in Hin. apply (f_equal length) in Hin.
  rewrite length_app, !length_fmap in Hin. simpl in Hin. lia.
Qed.

Lemma expire_loop_effects used n :
  forall i σ σ',
    expire_loop self now used n i σ = Ok (tt, σ') ->
    (exists calls, trace σ' = trace σ ++ calls /\ Forall is_put calls) /\
    (forall l, l ≠ detections self -> heap σ' l = heap σ l) /\
    stop_is_set σ' = stop_is_set σ /\
    Forall2 kept_or_cleared (heap σ (detections self))
      (heap σ' (detections self)).
Proof.
  induction n as [|n IH]; intros i σ σ'; simpl.
  - destruct (decide _); [|done]. intros [= <-].
    split; [exists []; by rewrite app_nil_r|].
    repeat split. apply kept_or_cleared_refl.
  - destruct (decide _) as [Hused|]; [|done].
    destruct (heap σ (detections self) !! i) as [[k v]|] eqn:Hi.
    2:{ intros [= <-]. split; [exists []; by rewrite app_nil_r|].
        repeat split. apply kept_or_cleared_refl. }
    destruct (expire_one self now v σ) as [[[] σ1]|] eqn:Hone; [|done].
    intros Hrest.
    apply expire_one_effects in Hone as (Htr1 & Hoth1 & Hstop1 & Hheap1).
    pose proof (expire_loop_ok_length _ _ _ _ _ Hrest) as Hused1.
    apply IH in Hrest as ((calls & Htr & Hput) & Hoth & Hstop & Hkept).
    split; [|split; [|split]].
    + destruct Htr1 as [Htr1|(c & Hc & Htr1)]; rewrite Htr, Htr1.
      * by exists calls.
      * exists (c :: calls). rewrite <- app_assoc. split; [done|].
        by constructor.
    + intros l Hl. by rewrite Hoth, Hoth1.
    + congruence.
    + eapply kept_or_cleared_trans; [|exact Hkept].
      destruct Hheap1 as [->|[k' Hk']]; [apply kept_or_cleared_refl|].
      rewrite Hk'.
      destruct (kept_or_cleared_dict_set k' (heap σ (detections self)))
        as [H|Hnew]; [exact H|].
      exfalso. rewrite Hk', (length_dict_set_new _ _ _ Hnew) in Hused1. lia.
Qed.

End Pass.

(** X10: an expiry pass that returns has only issued end calls, has
    left every other dict and the stop event alone, and has kept the keys
    of the dict and their order: each slot holds what it held or
    [None]. *)
Theorem expire_detections_frame self now σ σ' :
  expire_detections self now σ = Ok (tt, σ') ->
  (exists calls, trace σ' = trace σ ++ calls /\ Forall is_put calls) /\
  (forall l, l ≠ detections self -> heap σ' l = heap σ l) /\
  stop_is_set σ' = stop_is_set σ /\
  Forall2 kept_or_cleared (heap σ (detections self))
    (heap σ' (detections self)) /\
  keys (heap σ' (detections self)) = keys (heap σ (detections self)).
Proof.
  intros H. unfold expire_detections in H.
  apply expire_loop_effects in H as (Htr & Hoth & Hstop & Hkept).
  repeat split; try done. by apply kept_or_cleared_keys.
Qed.

Lemma expire_detections_frame_witness :
  exists σ',
    expire_detections yard_worker 41 (world_of busy_store) = Ok (tt, σ') /\
    keys (heap σ' 0%nat) = ["yard"%string; "bark"%string; "speech"%string] /\
    stop_is_set σ' = false.
Proof.
  eexists. split; [reflexivity|].
  match goal with
  | |- keys (heap ?w _) = _ /\ _ =>
      destruct (expire_detections_frame yard_worker 41
                  (world_of busy_store) w) as (_ & _ & Hstop & _ & Hkeys)
  end.
  - reflexivity.
  - split; [exact Hkeys | exact Hstop].
Defined.

Lemma expire_entry_key self now e : (expire_entry self now e).1 = e.1.
Proof. unfold expire_entry. by destruct (stale self now e.2). Qed.

Lemma expire_entry_tracked self now e :
  tracked e -> tracked (expire_entry self now e).
Proof. unfold expire_entry. by destruct (stale self now e.2). Qed.

Lemma expire_entry_settled self now now' e :
  now' <= now -> stale self now' (expire_entry self now e).2 = false.
Proof.
  intros Hle. unfold expire_entry.
  destruct (stale self now e.2) eqn:Hs; [done|].
  unfold stale in *. destruct e.2 as [d|]; [|done].
  destruct (d !! "last_detection"%string) as [[?|t|?]|]; try done.
  apply Qltb_ge in Hs. apply Qltb_ge. lra.
Qed.

(** X11: end calls are made once.  After an expiry pass over well-formed
    entries, a further pass at the same or an earlier clock value issues
    no call and leaves the dict as it is. *)
Theorem expire_detections_settles self now σ :
  let s := heap σ (detections self) in
  0 <= audio_max_not_heard (config self) ->
  NoDup (keys s) ->
  Forall tracked s ->
  exists σ',
    expire_detections self now σ = Ok (tt, σ') /\
    forall now', now' <= now ->
      exists σ'',
        expire_detections self now' σ' = Ok (tt, σ'') /\
        trace σ'' = trace σ' /\
        heap σ'' (detections self) = heap σ' (detections self).
Proof.
  intros s Hmax Hnd Htr.
  destruct (expire_detections_spec self now σ Hmax Hnd Htr)
    as (σ' & Hrun & Hheap & _).
  exists σ'. split; [exact Hrun|]. intros now' Hle.
  fold s in Hheap.
  assert (Forall tracked (heap σ' (detections self))) as Htr'.
  { rewrite Hheap. apply Forall_fmap. eapply Forall_impl; [exact Htr|].
    intros e He. by apply expire_entry_tracked. }
  destruct (expire_detections_spec self now' σ' Hmax)
    as (σ'' & Hrun' & Hheap' & Htrace'); [|exact Htr'|].
  { rewrite Hheap. unfold keys in *.
    change (map ?f ?l) with (f <$> l). rewrite <- list_fmap_compose.
    erewrite list_fmap_ext; [exact Hnd|].
    intros i e _. simpl. apply expire_entry_key. }
  destruct (expire_nothing self now' _ Htr') as [Hsame Hnone].
  { rewrite Hheap. apply Forall_fmap, Forall_forall. intros e _. simpl.
    by apply expire_entry_settled. }
  exists σ''. split; [exact Hrun'|].
  rewrite Htrace', Hheap', Hsame, Hnone. by rewrite app_nil_r.
Qed.

Lemma expire_detections_settles_witness :
  exists σ',
    expire_detections yard_worker 41 (world_of busy_store) = Ok (tt, σ') /\
    exists σ'',
      expire_detections yard_worker 41 σ' = Ok (tt, σ'') /\
      trace σ'' = trace σ' /\
      heap σ'' 0%nat = heap σ' 0%nat.
Proof.
  destruct (expire_detections_settles yard_worker 41 (world_of busy_store))
    as (σ' & Hrun & Hagain).
  - vm_compute. discriminate.
  - apply (bool_decide_unpack _). vm_compute. reflexivity.
  - exact tracked_busy_store.
  - exists σ'. split; [exact Hrun|]. apply Hagain.
    vm_compute. discriminate.
Defined.

(** X12: a negative [max_not_heard] makes the pass raise.  The first
    entry of the dict, when it is a non-empty dict without
    [last_detection] and without [id], such as the metrics of a camera,
    counts as stale and the end call cannot be built. *)
Theorem expire_detections_negative_timeout self now σ k d rest :
  audio_max_not_heard (config self) < 0 ->
  heap σ (detections self) = (k, Some d) :: rest ->
  d ≠ ∅ ->
  d !! "last_detection"%string = None ->
  d !! "id"%string = None ->
  expire_detections self now σ = Raise KeyError.
Proof.
  intros Hneg Hheap Hne Hlast Hid.
  unfold expire_detections. rewrite Hheap. simpl. rewrite Hheap. simpl.
  rewrite decide_True by done.
  unfold expire_one, last_detection_or. simpl.
  rewrite bool_decide_eq_false_2, Hlast, Hid by done. simpl.
  assert (Qltb (audio_max_not_heard (config self)) (now - now) = true) as ->
    by (apply Qltb_lt; lra).
  done.
Qed.

Lemma expire_detections_negative_timeout_witness :
  expire_detections hasty_worker 0 (world_of fresh_store) = Raise KeyError.
Proof.
  apply (expire_detections_negative_timeout hasty_worker 0
           (world_of fresh_store) "yard" (yard_metrics true) []).
  - reflexivity.
  - reflexivity.
  - apply insert_non_empty.
  - reflexivity.
  - reflexivity.
Defined.

(** ** More on [detect_audio] *)

Lemma handle_detection_effects self label score now resp σ σ' :
  handle_detection self label score now resp σ = Ok (tt, σ') ->
  (trace σ' = trace σ \/
   trace σ' = trace σ ++ [Post (name (config self)) label]) /\
  stop_is_set σ' = stop_is_set σ.
Proof.
  unfold handle_detection.
  destruct (truthy _).
  - destruct (dict_lookup label _) as [[d|]|]; try done.
    intros [= <-]. by split; [left|].
  - destruct (decide _).
    + destruct (json resp) as [|o rest]; [done|].
      destruct (o !! "event_id"%string); [|done].
      intros [= <-]. by split; [right|].
    + intros [= <-]. by split; [right|].
Qed.

Lemma handle_all_effects self env model_detections :
  forall i σ σ',
    handle_all self env i model_detections σ = Ok (tt, σ') ->
    exists posts,
      trace σ' = trace σ ++ posts /\ Forall (is_listened_post self) posts.
Proof.
  induction model_detections as [|[[label score] box] rest IH];
    intros i σ σ'; simpl.
  - intros [= <-]. exists []. by rewrite app_nil_r.
  - destruct (bool_decide (label ∈ audio_listen (config self))) eqn:Hl;
      [|apply IH].
    apply bool_decide_eq_true in Hl. unfold bind.
    destruct (handle_detection _ _ _ _ _ σ) as [[[] σ1]|] eqn:H1; [|done].
    intros (posts & Htr & Hposts)%IH.
    apply handle_detection_effects in H1 as [[H1|H1] _]; rewrite Htr, H1.
    + by exists posts.
    + exists (Post (name (config self)) label :: posts).
      rewrite <- app_assoc. split; [done|]. by constructor.
Qed.

(** X13: what one cycle adds to the trace, in this order: the run of the
    engine on the normalised samples (none when the stop event is set),
    then create calls, each for this camera and a label it listens for,
    then end calls. *)
Theorem detect_audio_trace c self env audio σ σ' metrics :
  dict_lookup (name (config self)) (heap σ (feature_metrics self))
  = Some (Some metrics) ->
  metrics !! "audio_enabled"%string = Some (FFlag true) ->
  detect_audio c self env audio σ = Ok (tt, σ') ->
  exists posts puts,
    trace σ'
    = trace σ
      ++ (if stop_is_set σ then [] else [Invoke (waveform_of c audio)])
      ++ posts ++ puts /\
    Forall (is_listened_post self) posts /\
    Forall is_put puts.
Proof.
  intros Hm Hflag. unfold detect_audio. rewrite Hm, Hflag. simpl.
  unfold bind. fold (waveform_of c audio).
  destruct (detect (detector self) (waveform_of c audio) 0.8 σ)
    as [[dets σ1]|] eqn:Hdet; [|done].
  destruct (handle_all self env 0 dets σ1) as [[[] σ2]|] eqn:Hall; [|done].
  intros Hexp.
  apply handle_all_effects in Hall as (posts & Htr2 & Hposts).
  unfold expire_detections in Hexp.
  apply expire_loop_effects in Hexp as ((puts & Htr3 & Hputs) & _).
  assert (trace σ1
          = trace σ
            ++ (if stop_is_set σ then [] else [Invoke (waveform_of c audio)]))
    as Htr1.
  { unfold detect in Hdet. destruct (stop_is_set σ) eqn:Hstop.
    - injection Hdet as <- <-. by rewrite app_nil_r.
    - unfold _detect_raw in Hdet. destruct (rank _); [|done].
      destruct (detect_loop _ _ _ _); [|done].
      by injection Hdet as <- <-. }
  exists posts, puts. split; [|done].
  rewrite Htr3, Htr2, Htr1. by rewrite <- !app_assoc.
Qed.

Lemma detect_audio_trace_witness :
  exists σ' posts puts,
    detect_audio yard_const yard_worker late_cycle [0%Z; 16384%Z]
      (world_of fresh_store) = Ok (tt, σ') /\
    trace σ'
    = [] ++ [Invoke (waveform_of yard_const [0%Z; 16384%Z])]
      ++ posts ++ puts /\
    Forall (is_listened_post yard_worker) posts /\
    Forall is_put puts.
Proof.
  eexists. 
  match goal with
  | |- exists posts puts, ?run = Ok (tt, ?w) /\ _ =>
      assert (run = Ok (tt, w)) as Hrun by reflexivity;
      destruct (detect_audio_trace yard_const yard_worker late_cycle
                  [0%Z; 16384%Z] (world_of fresh_store) w
                  (yard_metrics true) eq_refl eq_refl Hrun)
        as (posts & puts & Htrace & Hposts & Hputs)
  end.
  exists posts, puts. split; [exact Hrun|]. split; [exact Htrace|].
  split; [exact Hposts | exact Hputs].
Defined.

(** X14: a stopped worker still expires.  With processing enabled and
    the stop event set, a cycle runs no inference and handles no
    detection; it is the expiry pass alone. *)
Theorem detect_audio_stopped c self env audio σ metrics :
  dict_lookup (name (config self)) (heap σ (feature_metrics self))
  = Some (Some metrics) ->
  metrics !! "audio_enabled"%string = Some (FFlag true) ->
  stop_is_set σ = true ->
  detect_audio c self env audio σ
  = expire_detections self (now_expire env) σ.
Proof.
  intros Hm Hflag Hstop. unfold detect_audio. rewrite Hm, Hflag. simpl.
  unfold bind, detect. by rewrite Hstop.
Qed.

Lemma detect_audio_stopped_witness :
  detect_audio yard_const yard_worker late_cycle []
    (Supervisor.set_stop_event (world_of busy_store))
  = expire_detections yard_worker 100
      (Supervisor.set_stop_event (world_of busy_store)).
Proof.
  apply (detect_audio_stopped yard_const yard_worker late_cycle []
           (Supervisor.set_stop_event (world_of busy_store))
           (yard_metrics true));
    reflexivity.
Defined.

(** X15: the tensor handed to the engine has one entry per sample, and
    for 16-bit samples and a bit range of at least 32768 every entry lies
    between -1 and 1. *)
Theorem waveform_in_unit_range c audio :
  32768 <= AUDIO_MAX_BIT_RANGE c ->
  Forall int16_range audio ->
  length (waveform_of c audio) = length audio /\
  Forall (fun x => -1 <= x <= 1) (waveform_of c audio).
Proof.
  intros Hr Hall. unfold waveform_of. split; [apply length_map|].
  apply Forall_fmap. eapply Forall_impl; [exact Hall|].
  intros a [Hlo Hhi]. simpl.
  assert (0 < AUDIO_MAX_BIT_RANGE c) as Hpos by lra.
  rewrite Zle_Qle in Hlo, Hhi.
  change (inject_Z (-32768)) with (-32768) in Hlo.
  change (inject_Z 32767) with 32767 in Hhi.
  split.
  - apply Qle_shift_div_l; [done|]. lra.
  - apply Qle_shift_div_r; [done|]. lra.
Qed.

Lemma waveform_in_unit_range_witness :
  length (waveform_of yard_const [(-32768)%Z; 0%Z; 32767%Z]) = 3%nat /\
  Forall (fun x => -1 <= x <= 1)
    (waveform_of yard_const [(-32768)%Z; 0%Z; 32767%Z]).
Proof.
  apply (waveform_in_unit_range yard_const [(-32768)%Z; 0%Z; 32767%Z]).
  - vm_compute. discriminate.
  - repeat constructor; vm_compute; discriminate.
Defined.

(** * The supervisor and the read loop *)

Import Supervisor AudioStream.

(** ** The supervisor *)

Lemma start_workers_spec c cameras process_info detector acc :
  start_workers c cameras process_info detector acc
  = acc ++ map (fun cam => __init__ c (camera cam) process_info detector)
             (filter served cameras).
Proof.
  revert acc. induction cameras as [|cam rest IH]; intros acc; simpl.
  - by rewrite app_nil_r.
  - rewrite filter_cons. destruct (decide (served cam)) as [E|E].
    + unfold served in E. rewrite E, IH. simpl. by rewrite <- app_assoc.
    + unfold served in E. apply not_true_is_false in E. rewrite E.
      apply IH.
Qed.


(** Two of three cameras are served, in their order. *)
Example site_workers :
  config <$> listen_to_audio yard_const site_cameras 0%nat scenario_tfl
  = [yard; porch].
Proof. reflexivity. Qed.

Lemma worker_shares_dict c cameras process_info detector w :
  w ∈ listen_to_audio c cameras process_info detector ->
  detections w = process_info.
Proof.
  unfold listen_to_audio. rewrite start_workers_spec. simpl.
  by intros (cam & -> & _)%list_elem_of_fmap.
Qed.

(** X17: cameras debounce each other.  When one worker has created the
    event of a label, a detection of that label by any worker of the same
    process makes no create call: it only moves the time stamp of the
    first camera's record. *)
Theorem cross_camera_debounce c cameras process_info detector w1 w2
    label score1 now1 resp1 o rest event_id score2 now2 resp2 σ :
  w1 ∈ listen_to_audio c cameras process_info detector ->
  w2 ∈ listen_to_audio c cameras process_info detector ->
  truthy (dict_get label (heap σ process_info)) = false ->
  status_code resp1 = 200%Z -> json resp1 = o :: rest ->
  o !! "event_id"%string = Some event_id ->
  exists σ1 σ2,
    handle_detection w1 label score1 now1 resp1 σ = Ok (tt, σ1) /\
    handle_detection w2 label score2 now2 resp2 σ1 = Ok (tt, σ2) /\
    trace σ2 = trace σ ++ [Post (name (config w1)) label] /\
    dict_lookup label (heap σ2 process_info)
    = Some (Some (event_record event_id label now2)).
Proof.
  intros H1 H2 Hfalsy Hstatus Hjson Hid.
  apply worker_shares_dict in H1, H2.
  eexists _, _. split.
  { apply (handle_detection_create w1 label score1 now1 resp1 σ o rest
             event_id); [by rewrite H1 | done..]. }
  split.
  { apply (handle_detection_update w2 label score2 now2 resp2 _
             (event_record event_id label now1)).
    - simpl. rewrite H1, H2, decide_True by done.
      apply dict_lookup_set_eq.
    - apply insert_non_empty. }
  split; [done|].
  simpl. rewrite H1, H2, !decide_True by done.
  by rewrite dict_set_set, event_record_touch, dict_lookup_set_eq.
Qed.

Lemma yard_worker_listens :
  yard_worker ∈ listen_to_audio yard_const site_cameras 0%nat scenario_tfl.
Proof. apply list_elem_of_here. Qed.

Lemma porch_worker_listens :
  porch_worker ∈ listen_to_audio yard_const site_cameras 0%nat scenario_tfl.
Proof. apply list_elem_of_further, list_elem_of_here. Qed.

Lemma cross_camera_debounce_witness :
  exists σ1 σ2,
    handle_detection yard_worker "bark" 0.9 0 (created "e1")
      (world_of fresh_store) = Ok (tt, σ1) /\
    handle_detection porch_worker "bark" 0.85 3 (created "e2") σ1
    = Ok (tt, σ2) /\
    trace σ2 = trace (world_of fresh_store) ++ [Post "yard" "bark"] /\
    dict_lookup "bark" (heap σ2 0%nat)
    = Some (Some (event_record (FStr "e1") "bark" 3)).
Proof.
  apply (cross_camera_debounce yard_const site_cameras 0%nat scenario_tfl
           yard_worker porch_worker "bark" 0.9 0 (created "e1")
           (<["event_id"%string := FStr "e1"]> ∅) [] (FStr "e1")
           0.85 3 (created "e2") (world_of fresh_store)).
  - exact yard_worker_listens.
  - exact porch_worker_listens.
  - reflexivity.
  - reflexivity.
  - reflexivity.
  - reflexivity.
Defined.

Lemma idle_end_call self now e : idle e -> end_call self now e = None.
Proof.
  intros He. pose proof (end_call_stale self now e (idle_tracked e He)) as H.
  by rewrite (idle_not_stale self now e He) in H.
Qed.

Lemma end_calls_one_record self now label event_id t (s : store) :
  Forall idle s ->
  audio_max_not_heard (config self) < now - t ->
  omap (end_call self now)
    (dict_set label (Some (event_record event_id label t)) s)
  = [Put event_id (t + record_events_post_capture (config self))].
Proof.
  intros Hidle Hstale.
  assert (end_call self now (label, Some (event_record event_id label t))
          = Some (Put event_id
                    (t + record_events_post_capture (config self)))) as Hrec.
  { assert (event_record event_id label t !! "id"%string = Some event_id)
      as Hid by done.
    assert (event_record event_id label t !! "last_detection"%string
            = Some (FNum t)) as Ht by done.
    unfold end_call. simpl. rewrite Hid, Ht.
    apply Qltb_lt in Hstale. by rewrite Hstale. }
  assert (forall l : store, Forall idle l ->
            omap (end_call self now) l = []) as Hnone.
  { induction 1 as [|e l He _ IH]; [done|].
    change (omap (end_call self now) (e :: l))
      with (match end_call self now e with
            | Some c => c :: omap (end_call self now) l
            | None => omap (end_call self now) l
            end).
    by rewrite (idle_end_call self now e He). }
  induction Hidle as [|[k v] s He Hidle IH]; simpl.
  - change (omap ?f [?x]) with (match f x with Some c => [c] | None => [] end).
    by rewrite Hrec.
  - destruct (decide (k = label)) as [->|Hne].
    + change (omap (end_call self now)
                ((label, Some (event_record event_id label t)) :: s))
        with (match end_call self now
                      (label, Some (event_record event_id label t)) with
              | Some c => c :: omap (end_call self now) s
              | None => omap (end_call self now) s
              end).
      by rewrite Hrec, Hnone.
    + change (omap (end_call self now) ((k, v) :: ?l))
        with (match end_call self now (k, v) with
              | Some c => c :: omap (end_call self now) l
              | None => omap (end_call self now) l
              end).
      by rewrite (idle_end_call self now _ He), IH.
Qed.

(** X18: cameras end each other's events.  An event created by one
    worker is ended by the expiry pass of any worker of the same process,
    judged by that worker's [max_not_heard] and reported with that
    worker's [post_capture]. *)
Theorem cross_camera_expiry c cameras process_info detector w1 w2
    label score t resp o rest event_id now σ :
  let s := heap σ process_info in
  w1 ∈ listen_to_audio c cameras process_info detector ->
  w2 ∈ listen_to_audio c cameras process_info detector ->
  NoDup (keys s) -> Forall idle s ->
  truthy (dict_get label s) = false ->
  status_code resp = 200%Z -> json resp = o :: rest ->
  o !! "event_id"%string = Some event_id ->
  0 <= audio_max_not_heard (config w2) ->
  audio_max_not_heard (config w2) < now - t ->
  exists σ1 σ2,
    handle_detection w1 label score t resp σ = Ok (tt, σ1) /\
    expire_detections w2 now σ1 = Ok (tt, σ2) /\
    trace σ2
    = trace σ
      ++ [Post (name (config w1)) label;
          Put event_id (t + record_events_post_capture (config w2))] /\
    dict_lookup label (heap σ2 process_info) = Some None.
Proof.
  intros s H1 H2 Hnd Hidle Hfalsy Hstatus Hjson Hid Hmax Hstale.
  apply worker_shares_dict in H1, H2.
  set (σ1 := write process_info
               (dict_set label (Some (event_record event_id label t)) s)
               (emit (Post (name (config w1)) label) σ)).
  assert (heap σ1 (detections w2)
          = dict_set label (Some (event_record event_id label t)) s) as Hh1.
  { subst σ1. simpl. by rewrite H2, decide_True. }
  destruct (expire_detections_spec w2 now σ1 Hmax)
    as (σ2 & Hrun & Hheap & Htrace).
  { rewrite Hh1. by apply NoDup_keys_dict_set. }
  { rewrite Hh1. apply Forall_dict_set.
    - eapply Forall_impl; [exact Hidle | apply idle_tracked].
    - right. apply record_of_event_record. }
  exists σ1, σ2. split.
  { subst σ1 s. rewrite <- H1.
    apply (handle_detection_create w1 label score t resp σ o rest event_id);
      [by rewrite H1 | done..]. }
  split; [exact Hrun|]. split.
  - rewrite Htrace, Hh1, (end_calls_one_record w2 now) by done.
    subst σ1. simpl. by rewrite <- app_assoc.
  - rewrite <- H2, Hheap, Hh1, dict_lookup_map by apply expire_entry_key.
    rewrite dict_lookup_set_eq. simpl. unfold expire_entry, stale. simpl.
    assert (event_record event_id label t !! "last_detection"%string
            = Some (FNum t)) as -> by done.
    apply Qltb_lt in Hstale. by rewrite Hstale.
Qed.

Lemma cross_camera_expiry_witness :
  exists σ1 σ2,
    handle_detection yard_worker "bark" 0.9 0 (created "e1")
      (world_of fresh_store) = Ok (tt, σ1) /\
    expire_detections porch_worker 11 σ1 = Ok (tt, σ2) /\
    trace σ2
    = trace (world_of fresh_store)
      ++ [Post "yard" "bark"; Put (FStr "e1") (0 + 2)] /\
    dict_lookup "bark" (heap σ2 0%nat) = Some None.
Proof.
  apply (cross_camera_expiry yard_const site_cameras 0%nat scenario_tfl
           yard_worker porch_worker "bark" 0.9 0 (created "e1")
           (<["event_id"%string := FStr "e1"]> ∅) [] (FStr "e1") 11
           (world_of fresh_store)).
  - exact yard_worker_listens.
  - exact porch_worker_listens.
  - apply (bool_decide_unpack _). vm_compute. reflexivity.
  - apply Forall_cons. split; [reflexivity | constructor].
  - reflexivity.
  - reflexivity.
  - reflexivity.
  - reflexivity.
  - vm_compute. discriminate.
  - reflexivity.
Defined.

(** ** The read loop *)

Lemma int16_in_range lo hi : int16_range (int16 lo hi).
Proof.
  unfold int16, int16_range.
  pose proof (Byte.to_N_bounded lo). pose proof (Byte.to_N_bounded hi).
  destruct (Z.ltb_spec
              (Z.of_N (Byte.to_N lo) + 256 * Z.of_N (Byte.to_N hi)) 32768);
    lia.
Qed.

Lemma int16_samples_spec :
  forall buffer,
    Nat.even (length buffer) = true ->
    length buffer = (2 * length (int16_samples buffer))%nat /\
    Forall int16_range (int16_samples buffer).
Proof.
  fix IH 1. intros [|lo [|hi rest]]; simpl.
  - by split.
  - done.
  - intros Heven. destruct (IH rest Heven) as [Hlen Hall]. split; [lia|].
    constructor; [apply int16_in_range | done].
Qed.

(** Decoding a buffer of 16-bit samples: a buffer of an even
    number of bytes gives half as many samples, each within the signed
    16-bit range; a buffer of an odd number of bytes raises
    [ValueError]. *)
Lemma frombuffer_int16_spec buffer :
  (Nat.even (length buffer) = true ->
   exists audio,
     frombuffer_int16 buffer = Ok audio /\
     length buffer = (2 * length audio)%nat /\
     Forall int16_range audio) /\
  (Nat.even (length buffer) = false ->
   frombuffer_int16 buffer = Raise ValueError).
Proof.
  unfold frombuffer_int16. split; intros Heven; rewrite Heven; [|done].
  exists (int16_samples buffer). split; [done|].
  by apply int16_samples_spec.
Qed.

(** X19: when [chunk_size] is twice [shape], a read that fills the
    request decodes to exactly [shape] samples of 16 bits, and the cycle
    runs on them. *)
Theorem read_audio_full_window c path self data env st :
  chunk_size self = (2 * shape self)%Z ->
  (0 <= shape self)%Z ->
  length data = Z.to_nat (chunk_size self) ->
  exists audio,
    frombuffer_int16 data = Ok audio /\
    length audio = Z.to_nat (shape self) /\
    Forall int16_range audio /\
    read_audio c path self (Bytes data) env st
    = match detect_audio c self env audio (tracker st) with
      | Ok (_, σ) =>
          Ok (Stream σ
                (calls st
                 ++ (if pipe_file st then [] else [OpenPipe path])
                 ++ [ReadPipe (chunk_size self)])
                true (audio_listener st))
      | Raise e => Raise e
      end.
Proof.
  intros Hchunk Hshape Hlen.
  assert (Nat.even (length data) = true) as Heven.
  { rewrite Hlen, Hchunk, Z2Nat.inj_mul by lia.
    change (Z.to_nat 2) with 2%nat. by rewrite Nat.even_mul. }
  destruct (frombuffer_int16_spec data) as [Hok _].
  destruct (Hok Heven) as (audio & Hdec & Hl & Hrange).
  exists audio. split; [done|]. split; [lia|]. split; [done|].
  unfold read_audio. rewrite Hdec.
  destruct st as [σ0 done_calls [] listener]; simpl;
    destruct (detect_audio c self env audio σ0) as [[[] σ]|]; simpl;
    by rewrite <- ?app_assoc.
Qed.

Lemma read_audio_full_window_witness :
  exists audio,
    frombuffer_int16 two_samples = Ok audio /\
    length audio = Z.to_nat (shape tiny_worker) /\
    Forall int16_range audio.
Proof.
  destruct (read_audio_full_window tiny_const "/tmp/cache/yard-audio"
              tiny_worker two_samples late_cycle
              (fresh (world_of fresh_store)))
    as (audio & Hdec & Hlen & Hrange & _).
  - reflexivity.
  - vm_compute. discriminate.
  - reflexivity.
  - by exists audio.
Defined.

(** X20: a stop that comes before the first read makes [run] raise.
    The pipe has not been opened, and [self.pipe_file.close()] at line 248
    finds [None]. *)
Theorem run_stopped_before_first_read c cache_dir self t rest st :
  pipe_file st = false ->
  stop_is_set (tracker st) || stop_requested t = true ->
  run c cache_dir self (t :: rest) st = Failed AttributeError.
Proof.
  intros Hpipe Hstop. unfold run. simpl. rewrite Hpipe.
  destruct (stop_requested t); simpl.
  - done.
  - rewrite orb_false_r in Hstop. by rewrite Hstop.
Qed.

Lemma run_stopped_before_first_read_witness :
  run yard_const "/tmp/cache" yard_worker
    [Turn true BrokenPipe late_cycle] (fresh (world_of fresh_store))
  = Failed AttributeError.
Proof.
  apply (run_stopped_before_first_read yard_const "/tmp/cache" yard_worker
           (Turn true BrokenPipe late_cycle) []
           (fresh (world_of fresh_store)));
    reflexivity.
Defined.

Lemma read_audio_calls c path self got env st st' :
  audio_listener st = true ->
  read_audio c path self got env st = Ok st' ->
  pipe_file st' = true /\ audio_listener st' = true /\
  exists mid,
    calls st'
    = calls st ++ (if pipe_file st then [] else [OpenPipe path]) ++ mid /\
    Forall steady_call mid.
Proof.
  intros Hl. unfold read_audio.
  assert (forall (b : bool) (x y : stream), pipe_file (if b then x else y)
            = if b then pipe_file x else pipe_file y) as Hif
    by (by intros []).
  destruct got as [data|].
  - destruct (frombuffer_int16 data) as [audio|]; [|done].
    destruct (detect_audio _ _ _ _ _) as [[[] σ]|]; [|done].
    intros [= <-]. simpl.
    destruct (pipe_file st) eqn:Hp; simpl; rewrite ?Hp.
    + split; [done|]. split; [done|].
      exists [ReadPipe (chunk_size self)]. split; [done|].
      by repeat constructor.
    + split; [done|]. split; [done|].
      exists [ReadPipe (chunk_size self)].
      split; [by rewrite <- app_assoc|]. by repeat constructor.
  - intros [= <-]. simpl.
    destruct (pipe_file st) eqn:Hp; simpl; rewrite ?Hp, ?Hl.
    + split; [done|]. split; [done|].
      exists [ReadPipe (chunk_size self); LogDump; Mkfifo path;
              StartFfmpeg true].
      split; [by rewrite <- !app_assoc|]. by repeat constructor.
    + split; [done|]. split; [done|].
      exists [ReadPipe (chunk_size self); LogDump; Mkfifo path;
              StartFfmpeg true].
      split; [by rewrite <- !app_assoc|]. by repeat constructor.
Qed.

Lemma loop_calls c path self turns :
  forall st st',
    pipe_file st = true -> audio_listener st = true ->
    loop c path self turns st = Exited st' ->
    pipe_file st' = true /\ stop_is_set (tracker st') = true /\
    exists mid, calls st' = calls st ++ mid /\ Forall steady_call mid.
Proof.
  induction turns as [|t rest IH]; intros st st' Hp Hl; simpl; [done|].
  match goal with |- context [stop_is_set ?w] => set (σ := w) end.
  destruct (stop_is_set σ) eqn:Hstop.
  { intros [= <-]. simpl. split; [done|]. split; [done|].
    exists []. by rewrite app_nil_r. }
  destruct (read_audio _ _ _ _ _ _) as [st1|] eqn:Hread; [|done].
  apply read_audio_calls in Hread as (Hp1 & Hl1 & mid1 & Hc1 & Hs1);
    [|done].
  simpl in Hc1. rewrite Hp in Hc1. simpl in Hc1.
  intros (Hp' & Hstop' & mid & Hc & Hs)%IH; [|done..].
  split; [done|]. split; [done|].
  exists (mid1 ++ mid). split; [by rewrite Hc, Hc1, app_assoc|].
  by apply Forall_app.
Qed.

(** X21: an orderly shutdown.  When [run] returns, the stop event is
    set, and the calls of the worker are: create the pipe, start the
    decoder, open the pipe; then only reads, log dumps and restarts of
    pipe and decoder; then close the pipe, stop the decoder and close the
    log.  The pipe is opened once and closed once. *)
Theorem run_shutdown c cache_dir self turns σ st' :
  run c cache_dir self turns (fresh σ) = Exited st' ->
  let path := pipe_path cache_dir self in
  stop_is_set (tracker st') = true /\
  exists mid,
    calls st'
    = [Mkfifo path; StartFfmpeg false; OpenPipe path] ++ mid
      ++ [ClosePipe; StopFfmpeg; LogClose] /\
    Forall steady_call mid.
Proof.
  unfold run. set (path := pipe_path cache_dir self).
  destruct turns as [|t rest]; [done|]. simpl.
  match goal with |- context [stop_is_set ?w] => set (σ0 := w) end.
  destruct (stop_is_set σ0) eqn:Hstop; [done|].
  match goal with |- context [read_audio _ _ _ _ _ ?s] => set (st0 := s) end.
  destruct (read_audio c path self (got t) (cycle t) st0) as [st1|] eqn:Hread;
    [|done].
  apply read_audio_calls in Hread as (Hp1 & Hl1 & mid1 & Hc1 & Hs1);
    [|done].
  simpl in Hc1.
  destruct (loop c path self rest st1) as [st2| |] eqn:Hloop; try done.
  apply loop_calls in Hloop as (Hp2 & Hstop2 & mid2 & Hc2 & Hs2); [|done..].
  rewrite Hp2. intros [= <-]. simpl. split; [done|].
  exists (mid1 ++ mid2). split; [|by apply Forall_app].
  rewrite Hc2, Hc1. by rewrite <- !app_assoc.
Qed.

Lemma run_shutdown_witness :
  exists st' mid,
    run yard_const "/tmp/cache" yard_worker break_then_stop
      (fresh (world_of fresh_store)) = Exited st' /\
    stop_is_set (tracker st') = true /\
    calls st'
    = [Mkfifo "/tmp/cache/yard-audio"; StartFfmpeg false;
       OpenPipe "/tmp/cache/yard-audio"] ++ mid
      ++ [ClosePipe; StopFfmpeg; LogClose] /\
    Forall steady_call mid.
Proof.
  set (st' :=
         Stream (Supervisor.set_stop_event (world_of fresh_store))
           [Mkfifo "/tmp/cache/yard-audio"; StartFfmpeg false;
            OpenPipe "/tmp/cache/yard-audio";
            ReadPipe (chunk_size yard_worker); LogDump;
            Mkfifo "/tmp/cache/yard-audio"; StartFfmpeg true;
            ClosePipe; StopFfmpeg; LogClose] true true).
  assert (run yard_const "/tmp/cache" yard_worker break_then_stop
            (fresh (world_of fresh_store)) = Exited st') as Hrun
    by reflexivity.
  destruct (run_shutdown yard_const "/tmp/cache" yard_worker
              break_then_stop (world_of fresh_store) st' Hrun)
    as (Hstop & mid & Hcalls & Hsteady).
  exists st', mid. split; [exact Hrun|]. split; [exact Hstop|].
  split; [exact Hcalls | exact Hsteady].
Defined.

Lemma ffmpeg_starts_app l1 l2 :
  ffmpeg_starts (l1 ++ l2) = (ffmpeg_starts l1 + ffmpeg_starts l2)%nat.
Proof. unfold ffmpeg_starts. by rewrite filter_app, length_app. Qed.

(** X22: no cap on restarts.  While no stop is requested, every read
    that breaks is answered by one restart of pipe and decoder; the loop
    goes on and the tracker is not touched. *)
Theorem loop_restarts_without_limit c path self turns :
  forall st,
    stop_is_set (tracker st) = false ->
    Forall (fun t => stop_requested t = false /\ got t = BrokenPipe) turns ->
    exists st',
      loop c path self turns st = Looping st' /\
      tracker st' = tracker st /\
      ffmpeg_starts (calls st')
      = (ffmpeg_starts (calls st) + length turns)%nat.
Proof.
  induction turns as [|t rest IH]; intros st Hrun Hall; simpl.
  - exists st. split; [done|]. split; [done|]. lia.
  - apply Forall_cons in Hall as [[Hreq Hgot] Hall].
    rewrite Hreq, Hrun, Hgot. unfold read_audio. simpl.
    match goal with |- context [loop _ _ _ _ ?s] => set (st1 := s) end.
    destruct (IH st1) as (st' & Hloop & Htr & Hstarts); [|done|].
    { subst st1. simpl. by destruct (pipe_file st). }
    exists st'. split; [done|]. split.
    { rewrite Htr. subst st1. simpl. by destruct (pipe_file st). }
    rewrite Hstarts. subst st1. unfold restart_audio_pipe. simpl.
    destruct (pipe_file st); simpl;
      rewrite !ffmpeg_starts_app; unfold ffmpeg_starts; simpl; lia.
Qed.

Lemma loop_restarts_without_limit_witness :
  exists st',
    loop yard_const "/tmp/cache/yard-audio" yard_worker
      [Turn false BrokenPipe late_cycle; Turn false BrokenPipe late_cycle]
      (fresh (world_of fresh_store)) = Looping st' /\
    tracker st' = world_of fresh_store /\
    ffmpeg_starts (calls st') = 2%nat.
Proof.
  apply (loop_restarts_without_limit yard_const "/tmp/cache/yard-audio"
           yard_worker
           [Turn false BrokenPipe late_cycle; Turn false BrokenPipe late_cycle]
           (fresh (world_of fresh_store))).
  - reflexivity.
  - repeat constructor.
Defined.
